(** * VidNexus: the chunking and map-reduce summarisation pipeline of YSA.py

    A shallow embedding of [chunk_text], [summarize_using_agent] and of the
    part of the Streamlit script that chains them, followed by the theorems
    that settle the specification's claims about them. *)

From Stdlib Require Import List ZArith Lia Bool Arith Ascii.
From Stdlib Require String.
Import ListNotations String.StringSyntax.
Delimit Scope string_scope with string.
Local Open Scope Z_scope.

(** ** Python strings

    A Python [str] is a sequence of Unicode code points. *)

Module PyStr.

Definition char := N.
Definition pystr := list char.

(** String literals of this file are written as Rocq strings and read as the
    code points of their characters. *)
Definition str (s : String.string) : pystr :=
  map N_of_ascii (String.list_ascii_of_string s).
Arguments str s%_string.

Definition SPACE : char := 32%N.
Definition NEWLINE : char := 10%N.

(** [str.isspace] of one character: the code points Python's [str.split()]
    and [str.strip()] (without arguments) treat as whitespace. *)
Definition isspace (c : char) : bool :=
  ((9 <=? c) && (c <=? 13) || (28 <=? c) && (c <=? 32) || (c =? 133) || (c =? 160)
   || (c =? 5760) || (8192 <=? c) && (c <=? 8202) || (c =? 8232) || (c =? 8233)
   || (c =? 8239) || (c =? 8287) || (c =? 12288))%N.

(** The character class [[.!?]] of the sentence-splitting pattern. *)
Definition is_terminal (c : char) : bool :=
  ((c =? 46) || (c =? 33) || (c =? 63))%N.

Definition is_space (c : char) : bool := (c =? SPACE)%N.

Definition is_empty {A} (l : list A) : bool :=
  match l with [] => true | _ => false end.

(** [sep.join(parts)] *)
Fixpoint join (sep : pystr) (parts : list pystr) : pystr :=
  match parts with
  | [] => []
  | [p] => p
  | p :: rest => p ++ sep ++ join sep rest
  end.

(** [s.split()]: the maximal runs of non-whitespace characters of [s].
    [split_aux s] is the pair of the run that starts at the head of [s]
    (empty when [s] starts with whitespace) and the words after it. *)
Definition cons_word (w : pystr) (ws : list pystr) : list pystr :=
  if is_empty w then ws else w :: ws.

Fixpoint split_aux (s : pystr) : pystr * list pystr :=
  match s with
  | [] => ([], [])
  | c :: rest =>
      let (w, ws) := split_aux rest in
      if isspace c then ([], cons_word w ws) else (c :: w, ws)
  end.

Definition split (s : pystr) : list pystr :=
  let (w, ws) := split_aux s in cons_word w ws.

(** [s.strip()] *)
Fixpoint lstrip (s : pystr) : pystr :=
  match s with
  | c :: rest => if isspace c then lstrip rest else s
  | [] => []
  end.

Definition rstrip (s : pystr) : pystr := rev (lstrip (rev s)).

Definition strip (s : pystr) : pystr := rstrip (lstrip s).

(** A text is trimmed when it neither starts nor ends with whitespace. *)
Definition starts_with_space (s : pystr) : bool :=
  match s with c :: _ => isspace c | [] => false end.

Definition trimmed (s : pystr) : bool :=
  negb (starts_with_space s) && negb (starts_with_space (rev s)).

(** [re.split(r'(?<=[.!?]) +', text)].

    The pattern matches a maximal run of one or more spaces (U+0020) that is
    preceded by one of [.], [!], [?]; matches are found from left to right
    and do not overlap, and the pieces between them are returned, so the
    result always has at least one element.  The scanner is in one of two
    modes: [Scan p] inside a piece, [p] telling whether the previous
    character is terminal punctuation, and [Skip] inside a match.
    [re_split_aux m text] is the pair of the rest of the current piece and
    the pieces after it. *)
Inductive mode := Scan (prev_terminal : bool) | Skip.

Fixpoint re_split_aux (m : mode) (text : pystr) : pystr * list pystr :=
  match text with
  | [] => ([], [])
  | c :: rest =>
      match m with
      | Scan true =>
          if is_space c
          then let (h, t) := re_split_aux Skip rest in ([], h :: t)
          else let (h, t) := re_split_aux (Scan (is_terminal c)) rest in (c :: h, t)
      | Scan false =>
          let (h, t) := re_split_aux (Scan (is_terminal c)) rest in (c :: h, t)
      | Skip =>
          if is_space c
          then re_split_aux Skip rest
          else let (h, t) := re_split_aux (Scan (is_terminal c)) rest in (c :: h, t)
      end
  end.

Definition re_split (text : pystr) : list pystr :=
  let (h, t) := re_split_aux (Scan false) text in h :: t.

End PyStr.
Export PyStr.

(** ** The Segmenter: [chunk_text] *)

(** [len(s.split())] *)
Definition word_count (s : pystr) : Z := Z.of_nat (length (split s)).

(** One iteration of the [for s in sentences] loop on the loop variables
    [(chunks, cur, cur_len)]. *)
Definition chunk_step (max_words : Z) (st : list pystr * list pystr * Z) (s : pystr)
  : list pystr * list pystr * Z :=
  let '(chunks, cur, cur_len) := st in
  let s_len := word_count s in
  if (cur_len + s_len >? max_words) && negb (is_empty cur)
  then (chunks ++ [join (str " ") cur], [s], s_len)
  else (chunks, cur ++ [s], cur_len + s_len).

Definition chunk_text (text : pystr) (max_words : Z) : list pystr :=
  let sentences := re_split text in
  let '(chunks, cur, _) := fold_left (chunk_step max_words) sentences ([], [], 0) in
  if negb (is_empty cur) then chunks ++ [join (str " ") cur] else chunks.

(** The default of the [max_words] parameter and the value the script passes. *)
Definition default_max_words : Z := 150.

(** ** Python lists: [range] and slicing *)

Module PyList.

(** [len(range(start, stop, step))] for [step <> 0], as CPython computes it. *)
Definition range_len (start stop step : Z) : Z :=
  if (0 <? step) && (start <? stop) then 1 + (stop - 1 - start) / step
  else if (step <? 0) && (stop <? start) then 1 + (start - 1 - stop) / (- step)
  else 0.

(** [list(range(start, stop, step))]; [None] is the [ValueError] that
    [range] raises for a zero step. *)
Definition py_range (start stop step : Z) : option (list Z) :=
  if step =? 0 then None
  else Some (map (fun k => start + Z.of_nat k * step)
                 (seq 0 (Z.to_nat (range_len start stop step)))).

(** A slice bound is counted from the end when negative and clamped to the
    list. *)
Definition clamp_index (len i : Z) : Z :=
  if i <? 0 then Z.max (i + len) 0 else Z.min i len.

(** [l[i:j]] *)
Definition py_slice {A} (l : list A) (i j : Z) : list A :=
  let n := Z.of_nat (length l) in
  let lo := clamp_index n i in
  let hi := clamp_index n j in
  firstn (Z.to_nat (hi - lo)) (skipn (Z.to_nat lo) l).

End PyList.
Export PyList.

(** ** The agent and the effects of the summariser

    [youtube_agent.run(prompt)] is the only call that leaves the program.  It
    is a parameter of the model: a transition on some state of the agent (the
    provider, the network, the calls made so far) that either returns a
    value, a [str] or some other object, or raises. *)

Section Summarizer.

Variable agent_state : Type.
Variable object : Type.
Variable failure : Type.

(** [str(out)] for a return value that is not a [str]. *)
Variable py_str : object -> pystr.

Inductive value := VStr (s : pystr) | VObj (o : object).
Inductive outcome := Returns (v : value) | Raises (e : failure).

Variable agent_run : agent_state -> pystr -> agent_state * outcome.

(** Exceptions that can leave [summarize_using_agent]: one raised by the
    agent, or the [ValueError] of [range] with a zero step. *)
Inductive pyexn := AgentError (e : failure) | ValueError.

(** What a run does to the outside: the model invocations with their
    prompts and outcomes, and the calls of [time.sleep(delay_seconds)]. *)
Inductive event := Run (prompt : pystr) (out : outcome) | Sleep.

(** The result of a computation: a value, an exception that propagates, or
    [Running] when the fuel of the [while] loop ran out before it ended. *)
Inductive res (A : Type) := Ok (a : A) | Exc (e : pyexn) | Running.
Arguments Ok {A} a.
Arguments Exc {A} e.
Arguments Running {A}.

(** A computation takes the agent's state and gives its new state, the
    events performed in order, and its result. *)
Definition M (A : Type) : Type := agent_state -> agent_state * list event * res A.

Definition ret {A} (a : A) : M A := fun st => (st, [], Ok a).

Definition bind {A B} (m : M A) (f : A -> M B) : M B :=
  fun st =>
    let '(st1, tr1, r) := m st in
    match r with
    | Ok a => let '(st2, tr2, r2) := f a st1 in (st2, tr1 ++ tr2, r2)
    | Exc e => (st1, tr1, Exc e)
    | Running => (st1, tr1, Running)
    end.

Notation "x <- m ;; k" := (bind m (fun x => k))
  (at level 61, m at next level, right associativity).
Notation "m ;;; k" := (bind m (fun _ => k))
  (at level 61, right associativity).

Definition raise {A} (e : pyexn) : M A := fun st => (st, [], Exc e).
Definition out_of_fuel {A} : M A := fun st => (st, [], Running).

(** [youtube_agent.run(prompt)] *)
Definition call_agent (prompt : pystr) : M value :=
  fun st =>
    let (st', out) := agent_run st prompt in
    (st', [Run prompt out],
     match out with Returns v => Ok v | Raises e => Exc (AgentError e) end).

(** [time.sleep(delay_seconds)] *)
Definition sleep : M unit := fun st => (st, [Sleep], Ok tt).

(** [out.strip() if isinstance(out, str) else str(out)] *)
Definition capture (out : value) : pystr :=
  match out with
  | VStr s => strip s
  | VObj o => py_str o
  end.

Definition leaf_prompt (chunk : pystr) : pystr :=
  str "From the following transcript chunk, write a detailed chronological description covering all events, actions, and statements exactly as they appear, without skipping any details:"
  ++ [NEWLINE; NEWLINE] ++ chunk.

Definition batch_prompt (batch : list pystr) : pystr :=
  str "Combine the following detailed summaries into one chronological description, preserving all events and facts without removing any important points:"
  ++ [NEWLINE; NEWLINE] ++ join [NEWLINE; NEWLINE] batch.

(** Step 1, [for i, chunk in enumerate(chunks, start=1)]: one call per chunk,
    the captured result appended to [summaries]. *)
Fixpoint summarize_chunks (chunks summaries : list pystr) : M (list pystr) :=
  match chunks with
  | [] => ret summaries
  | chunk :: rest =>
      out <- call_agent (leaf_prompt chunk) ;;
      sleep ;;;
      summarize_chunks rest (summaries ++ [capture out])
  end.

(** The body of [for i in range(0, len(summaries), batch_size)] over the
    indices still to visit. *)
Fixpoint merge_batches (indices : list Z) (batch_size : Z)
    (summaries merged_summaries : list pystr) : M (list pystr) :=
  match indices with
  | [] => ret merged_summaries
  | i :: rest =>
      let batch := py_slice summaries i (i + batch_size) in
      combined <- call_agent (batch_prompt batch) ;;
      sleep ;;;
      merge_batches rest batch_size summaries (merged_summaries ++ [capture combined])
  end.

(** One iteration of [while len(summaries) > 1]: a merge pass. *)
Definition merge_pass (batch_size : Z) (summaries : list pystr) : M (list pystr) :=
  match py_range 0 (Z.of_nat (length summaries)) batch_size with
  | None => raise ValueError
  | Some indices => merge_batches indices batch_size summaries []
  end.

(** Step 2, [while len(summaries) > 1]; [fuel] bounds the number of
    iterations that are followed. *)
Fixpoint merge_loop (fuel : nat) (batch_size : Z) (summaries : list pystr)
  : M (list pystr) :=
  if (1 <? length summaries)%nat then
    match fuel with
    | O => out_of_fuel
    | S fuel' =>
        merged_summaries <- merge_pass batch_size summaries ;;
        merge_loop fuel' batch_size merged_summaries
    end
  else ret summaries.

(** [summaries[0] if summaries else ""] *)
Definition final_summary (summaries : list pystr) : pystr :=
  match summaries with s :: _ => s | [] => [] end.

(** The Reducer: step 2 and the [return] statement. *)
Definition reduce (fuel : nat) (batch_size : Z) (summaries : list pystr) : M pystr :=
  summaries <- merge_loop fuel batch_size summaries ;;
  ret (final_summary summaries).

(** The body of [summarize_using_agent] with its local constant
    [batch_size] as a parameter. *)
Definition summarize_with (batch_size : Z) (fuel : nat) (chunks : list pystr) : M pystr :=
  summaries <- summarize_chunks chunks [] ;;
  reduce fuel batch_size summaries.

(** [batch_size = 1  # smaller batches to prevent token overflow] *)
Definition batch_size : Z := 1.

Definition summarize_using_agent (fuel : nat) (chunks : list pystr) : M pystr :=
  summarize_with batch_size fuel chunks.

(** The values [summaries] takes at the head of the [while] loop, one per
    pass, the leaf pass first. *)
Fixpoint merge_passes (fuel : nat) (batch_size : Z) (summaries : list pystr)
    (st : agent_state) : list (list pystr) :=
  summaries ::
  if (1 <? length summaries)%nat then
    match fuel with
    | O => []
    | S fuel' =>
        match merge_pass batch_size summaries st with
        | (st', _, Ok merged_summaries) => merge_passes fuel' batch_size merged_summaries st'
        | _ => []
        end
    end
  else [].

(** ** The script: from the transcript to the summary

    The part of the button handler that follows the fetch of the transcript:
    the guard [if not transcript], [chunk_text], [summarize_using_agent], and
    the [except Exception] around them.  [max_words] is 150 and [batch_size]
    is 1 in the script; they are parameters here. *)
Inductive shown :=
| SummaryReady (summary : pystr)
| TranscriptUnavailable
| ErrorShown (e : pyexn)
| StillRunning.

Definition process_with (max_words batch_size : Z) (fuel : nat)
    (transcript : option pystr) (st : agent_state)
  : agent_state * list event * shown :=
  match transcript with
  | None | Some [] => (st, [], TranscriptUnavailable)
  | Some text =>
      let chunks := chunk_text text max_words in
      let '(st', tr, r) := summarize_with batch_size fuel chunks st in
      (st', tr, match r with
                | Ok summary => SummaryReady summary
                | Exc e => ErrorShown e
                | Running => StillRunning
                end)
  end.

Definition process (fuel : nat) (transcript : option pystr) (st : agent_state) :=
  process_with default_max_words batch_size fuel transcript st.

(** The prompts of the model invocations among the events, and the values
    the invocations returned. *)
Definition prompts (tr : list event) : list pystr :=
  flat_map (fun ev => match ev with Run p _ => [p] | Sleep => [] end) tr.

Definition returned (tr : list event) : list value :=
  flat_map (fun ev => match ev with Run _ (Returns v) => [v] | _ => [] end) tr.

(** An agent that returns at every call. *)
Definition reliable : Prop :=
  forall st prompt, exists v, snd (agent_run st prompt) = Returns v.

(** No call among the events has raised. *)
Definition no_raise (tr : list event) : Prop :=
  Forall (fun ev => match ev with Run _ (Raises _) => False | _ => True end) tr.

(** Either no call has failed and the result is not an agent failure, or
    the last event is the one failing call and the result is its failure. *)
Definition fail_fast {A} (x : agent_state * list event * res A) : Prop :=
  let '(_, tr, r) := x in
  (no_raise tr /\ forall e, r <> Exc (AgentError e))
  \/ exists pre p e,
       tr = pre ++ [Run p (Raises e)] /\ no_raise pre /\ r = Exc (AgentError e).

End Summarizer.

Arguments VStr {object} s.
Arguments VObj {object} o.
Arguments Returns {object failure} v.
Arguments Raises {object failure} e.
Arguments AgentError {failure} e.
Arguments ValueError {failure}.
Arguments Run {object failure} prompt out.
Arguments Sleep {object failure}.
Arguments Ok {failure A} a.
Arguments Exc {failure A} e.
Arguments Running {failure A}.
Arguments SummaryReady {failure} summary.
Arguments TranscriptUnavailable {failure}.
Arguments ErrorShown {failure} e.
Arguments StillRunning {failure}.

Arguments ret {agent_state object failure A} a st.
Arguments bind {agent_state object failure A B} m f st.
Arguments call_agent {agent_state object failure} agent_run prompt st.
Arguments sleep {agent_state object failure} st.
Arguments capture {object} py_str out.
Arguments summarize_chunks {agent_state object failure} py_str agent_run chunks summaries st.
Arguments merge_batches {agent_state object failure} py_str agent_run indices batch_size
  summaries merged_summaries st.
Arguments merge_pass {agent_state object failure} py_str agent_run batch_size summaries st.
Arguments merge_loop {agent_state object failure} py_str agent_run fuel batch_size summaries st.
Arguments merge_passes {agent_state object failure} py_str agent_run fuel batch_size summaries st.
Arguments summarize_with {agent_state object failure} py_str agent_run batch_size fuel chunks st.
Arguments summarize_using_agent {agent_state object failure} py_str agent_run fuel chunks st.
Arguments process_with {agent_state object failure} py_str agent_run max_words batch_size
  fuel transcript st.
Arguments process {agent_state object failure} py_str agent_run fuel transcript st.
Arguments reduce {agent_state object failure} py_str agent_run fuel batch_size summaries st.
Arguments prompts {object failure} tr.
Arguments returned {object failure} tr.
Arguments reliable {agent_state object failure} agent_run.
Arguments no_raise {object failure} tr.
Arguments fail_fast {agent_state object failure A} x.

(** ** Stub agents for the scenarios *)

Module Stub.

(** No return value other than [str], no failure. *)
Definition no_object := Empty_set.
Definition no_str (o : no_object) : pystr := match o with end.

(** The agent that gives back the last character of its prompt and counts
    its invocations. *)
Definition last_char (prompt : pystr) : pystr :=
  match rev prompt with c :: _ => [c] | [] => [] end.

Definition brief_run (n : nat) (prompt : pystr) : nat * @outcome no_object unit :=
  (S n, Returns (VStr (last_char prompt))).

(** The agent that echoes its prompt. *)
Definition echo_run (n : nat) (prompt : pystr) : nat * @outcome no_object unit :=
  (S n, Returns (VStr prompt)).

(** The agent that raises on its second invocation. *)
Definition second_fails_run (n : nat) (prompt : pystr) : nat * @outcome no_object unit :=
  (S n, if (n =? 1)%nat then Raises tt else Returns (VStr (last_char prompt))).

(** The agent that returns an object, here standing for itself as its own
    [str()] text, around the last character of the prompt. *)
Definition object_run (n : nat) (prompt : pystr) : nat * @outcome pystr unit :=
  (S n, Returns (VObj (str " " ++ last_char prompt ++ str " "))).

Definition text_of (o : pystr) : pystr := o.

End Stub.

(** ** Definitions for the statements *)

(** The words of the sentences of a list, counted together. *)
Definition total_words (g : list pystr) : Z := fold_right Z.add 0 (map word_count g).

(** The sentences behind each chunk.

    [chunk_groups] is the run of [chunk_text] with every chunk kept as the
    list [cur] of sentences it is joined from. *)

Definition group_step (max_words : Z) (st : list (list pystr) * list pystr * Z)
    (s : pystr) : list (list pystr) * list pystr * Z :=
  let '(groups, cur, cur_len) := st in
  let s_len := word_count s in
  if (cur_len + s_len >? max_words) && negb (is_empty cur)
  then (groups ++ [cur], [s], s_len)
  else (groups, cur ++ [s], cur_len + s_len).

Definition chunk_groups (text : pystr) (max_words : Z) : list (list pystr) :=
  let sentences := re_split text in
  let '(groups, cur, _) := fold_left (group_step max_words) sentences ([], [], 0) in
  if negb (is_empty cur) then groups ++ [cur] else groups.

(** A group fits when its words are at most [max_words] or it is one
    sentence that is longer than that by itself. *)
Definition group_fits (max_words : Z) (g : list pystr) : Prop :=
  total_words g <= max_words \/ exists s, g = [s] /\ max_words < word_count s.

(** The invariant of the loop over the sentences [done] so far. *)
Record chunk_inv (max_words : Z) (done : list pystr) (G : list (list pystr)) (cur : list pystr)
    (n : Z) : Prop := {
  inv_concat : concat G ++ cur = done;
  inv_nonempty : Forall (fun g => g <> []) G;
  inv_len : n = total_words cur;
  inv_fits : Forall (group_fits max_words) G;
  inv_cur : n <= max_words \/ (length cur <= 1)%nat
}.

(** Whether the scanner has just read terminal punctuation after [s]. *)
Definition end_state (p : bool) (s : pystr) : bool :=
  fold_left (fun _ c => is_terminal c) s p.

(** [s] holds no match of the pattern when scanned from state [p]. *)
Definition piece_from (p : bool) (s : pystr) : Prop :=
  re_split_aux (Scan p) s = (s, []).

Definition no_lead (s : pystr) : Prop :=
  match s with c :: _ => is_space c = false | [] => True end.

(** Consecutive sentences: each holds no match, and each one that has a
    successor ends with terminal punctuation, the successor not starting
    with a space. *)
Fixpoint chain (l : list pystr) : Prop :=
  match l with
  | [] => True
  | s :: rest =>
      piece_from false s
      /\ (rest <> [] -> end_state false s = true /\ no_lead (hd [] rest))
      /\ chain rest
  end.

(** The number of summaries after a merge pass over [n] summaries. *)
Definition next_size (batch_size : Z) (n : nat) : nat :=
  Z.to_nat (range_len 0 (Z.of_nat n) batch_size).

(** The sizes of the successive passes. *)
Fixpoint pass_sizes (fuel : nat) (batch_size : Z) (n : nat) : list nat :=
  n ::
  if (1 <? n)%nat then
    match fuel with
    | O => []
    | S fuel' => pass_sizes fuel' batch_size (next_size batch_size n)
    end
  else [].

(** The groups a merge pass cuts [summaries] into: the slices taken at the
    indices of the [range]. *)
Definition merge_groups (batch_size : Z) (summaries : list pystr) : list (list pystr) :=
  match py_range 0 (Z.of_nat (length summaries)) batch_size with
  | None => []
  | Some indices => map (fun i => py_slice summaries i (i + batch_size)) indices
  end.

(** ** [extract_video_id]

    [re.search(r"(?:v=|youtu\.be/|/embed/|/v/|shorts/)([A-Za-z0-9_-]{11})", url)] *)

(** The character class [[A-Za-z0-9_-]]. *)
Definition is_id_char (c : char) : bool :=
  ((65 <=? c) && (c <=? 90) || (97 <=? c) && (c <=? 122) || (48 <=? c) && (c <=? 57)
   || (c =? 95) || (c =? 45))%N.

(** The alternatives of the non-capturing group, in the order they are tried. *)
Definition id_markers : list pystr :=
  [str "v="; str "youtu.be/"; str "/embed/"; str "/v/"; str "shorts/"].

(** The rest of [s] after the literal [lit], when [s] starts with it. *)
Fixpoint after_literal (lit s : pystr) : option pystr :=
  match lit, s with
  | [], _ => Some s
  | a :: lit', b :: s' => if (a =? b)%N then after_literal lit' s' else None
  | _ :: _, [] => None
  end.

(** The group [([A-Za-z0-9_-]{11})] at the head of [s]. *)
Definition id_at (s : pystr) : option pystr :=
  let id := firstn 11 s in
  if (length id =? 11)%nat && forallb is_id_char id then Some id else None.

(** The pattern at the head of [s]: the alternatives in order, the next one
    being tried when one does not lead to a match. *)
Fixpoint match_here (markers : list pystr) (s : pystr) : option pystr :=
  match markers with
  | [] => None
  | m :: rest =>
      match after_literal m s with
      | Some r =>
          match id_at r with
          | Some id => Some id
          | None => match_here rest s
          end
      | None => match_here rest s
      end
  end.

(** [re.search]: the match at the leftmost position that has one. *)
Fixpoint search_id (url : pystr) : option pystr :=
  match match_here id_markers url with
  | Some id => Some id
  | None =>
      match url with
      | [] => None
      | _ :: rest => search_id rest
      end
  end.

(** [match.group(1)], or [None] for the [ValueError] raised when there is no
    match. *)
Definition extract_video_id (url : pystr) : option pystr := search_id url.

(** [f"https://www.youtube.com/watch?v={video_id}"], the URL the script
    plays. *)
Definition watch_url (video_id : pystr) : pystr :=
  str "https://www.youtube.com/watch?v=" ++ video_id.

(** An identifier as the pattern captures it. *)
Definition valid_id (id : pystr) : Prop :=
  length id = 11%nat /\ forallb is_id_char id = true.

(** [lit] and [s] differ at a position both have: [lit] is no prefix of any
    extension of [s]. *)
Fixpoint clashes (lit s : pystr) : bool :=
  match lit, s with
  | a :: lit', b :: s' => negb (a =? b)%N || clashes lit' s'
  | _, _ => false
  end.

(** No position of [pre] can start a match, whatever follows [pre]. *)
Fixpoint inert (pre : pystr) : bool :=
  match pre with
  | [] => true
  | _ :: rest => forallb (fun m => clashes m pre) id_markers && inert rest
  end.

(** ** [fetch_transcript_yt_dlp] *)

Definition LT : char := 60%N.
Definition GT : char := 62%N.

(** Whether a match of [<[^>]+>] starts at a [<] that is followed by [rest]:
    the next character is not [>] and a [>] comes later. *)
Definition opens_tag (rest : pystr) : bool :=
  match rest with
  | c :: r => negb (c =? GT)%N && existsb (fun x => (x =? GT)%N) r
  | [] => false
  end.

(** [re.sub(r"<[^>]+>", " ", text)]; [inside] holds within a match, up to
    its closing [>]. *)
Fixpoint sub_tags_aux (inside : bool) (text : pystr) : pystr :=
  match text with
  | [] => []
  | c :: rest =>
      if inside then
        if (c =? GT)%N then sub_tags_aux false rest else sub_tags_aux true rest
      else if (c =? LT)%N && opens_tag rest then SPACE :: sub_tags_aux true rest
      else c :: sub_tags_aux false rest
  end.

Definition sub_tags (text : pystr) : pystr := sub_tags_aux false text.

(** [re.sub(r"\s+", " ", text)]; [in_run] holds within a run of whitespace,
    which [\s] takes as [str.isspace] does. *)
Fixpoint sub_spaces_aux (in_run : bool) (text : pystr) : pystr :=
  match text with
  | [] => []
  | c :: rest =>
      if isspace c then
        if in_run then sub_spaces_aux true rest else SPACE :: sub_spaces_aux true rest
      else c :: sub_spaces_aux false rest
  end.

Definition sub_spaces (text : pystr) : pystr := sub_spaces_aux false text.

(** The two substitutions and the [strip()] applied to [r.text]. *)
Definition clean_subtitles (r_text : pystr) : pystr :=
  strip (sub_spaces (sub_tags r_text)).

(** A caption format of a language: [entry.get("url")]. *)
Record caption_format := { format_url : option pystr }.

(** A dictionary from language codes to the formats of the language, in
    the order of its keys. *)
Definition captions := list (pystr * list caption_format).

(** What the function reads of [ydl.extract_info(...)]: the values of
    [info.get("automatic_captions")] and [info.get("subtitles")]. *)
Record video_info := {
  automatic_captions : option captions;
  subtitles : option captions
}.

(** [d[key]], by the first entry of that key. *)
Fixpoint dict_get {V} (key : pystr) (d : list (pystr * V)) : option V :=
  match d with
  | [] => None
  | (k, v) :: rest => if list_eq_dec N.eq_dec k key then Some v else dict_get key rest
  end.

(** [key in d] *)
Definition dict_has {V} (key : pystr) (d : list (pystr * V)) : bool :=
  match dict_get key d with Some _ => true | None => false end.

(** [a or b] on dictionaries: [a] unless it is [None] or empty. *)
Definition or_captions (a : option captions) (b : captions) : captions :=
  match a with
  | Some (e :: d) => e :: d
  | _ => b
  end.

Section FetchTranscript.

(** [ydl.extract_info(video_url, download=False)] and
    [requests.get(sub_url, ...)] with [raise_for_status()] and [.text];
    [None] stands for an exception. *)
Variable extract_info : pystr -> option video_info.
Variable http_get : pystr -> option pystr.

(** [None] is the [None] the function returns, also from its [except]. *)
Definition fetch_transcript_yt_dlp (video_url : pystr) : option pystr :=
  match extract_info video_url with
  | None => None
  | Some info =>
      let subs := or_captions (automatic_captions info) (or_captions (subtitles info) []) in
      match subs with
      | [] => None
      | (first_key, _) :: _ =>
          let lang_key := if dict_has (str "en") subs then str "en" else first_key in
          match dict_get lang_key subs with
          | Some (entry :: _) =>
              match format_url entry with
              | Some (c :: u) =>
                  match http_get (c :: u) with
                  | Some r_text => Some (clean_subtitles r_text)
                  | None => None
                  end
              | _ => None
              end
          | _ => None
          end
      end
  end.

End FetchTranscript.

(** Every whitespace character of [s] is a space and no two spaces are
    adjacent; [prev_space] tells whether a space comes just before [s]. *)
Fixpoint single_spaced_aux (prev_space : bool) (s : pystr) : bool :=
  match s with
  | [] => true
  | c :: r =>
      if isspace c then (c =? SPACE)%N && negb prev_space && single_spaced_aux true r
      else single_spaced_aux false r
  end.

Definition single_spaced (s : pystr) : bool := single_spaced_aux false s.

(** No match of [<[^>]+>] starts in [s]. *)
Fixpoint no_tag (s : pystr) : bool :=
  match s with
  | [] => true
  | c :: r => negb ((c =? LT)%N && opens_tag r) && no_tag r
  end.

(** [s] does not end with whitespace. *)
Fixpoint no_trailing_space (s : pystr) : bool :=
  match s with
  | [] => true
  | [c] => negb (isspace c)
  | _ :: r => no_trailing_space r
  end.

(** The words, each preceded by a space. *)
Definition spaced (ws : list pystr) : pystr := concat (map (fun w => SPACE :: w) ws).

(** Each group but the last is followed by a group whose first sentence
    would not have fitted in it. *)
Fixpoint greedy (max_words : Z) (G : list (list pystr)) : Prop :=
  match G with
  | [] => True
  | g1 :: rest =>
      match rest with
      | g2 :: _ => max_words < total_words g1 + word_count (hd [] g2)
      | [] => True
      end
      /\ greedy max_words rest
  end.

(** The events of a run are paced: every call that returns is followed by
    one sleep, a call that raises is the last event, and there is no other
    sleep.  [steady] is the same without a failing call. *)
Inductive steady {object failure : Type} : list (@event object failure) -> Prop :=
| steady_nil : steady []
| steady_call p v tr : steady tr -> steady (Run p (Returns v) :: Sleep :: tr).

Inductive paced {object failure : Type} : list (@event object failure) -> Prop :=
| paced_nil : paced []
| paced_fail p e : paced [Run p (Raises e)]
| paced_call p v tr : paced tr -> paced (Run p (Returns v) :: Sleep :: tr).

(** A computation is well paced when its events are paced, and steady
    unless it ends with a failure of the agent. *)
Definition well_paced {agent_state object failure A}
    (x : agent_state * list (@event object failure) * @res failure A) : Prop :=
  let '(_, tr, r) := x in
  paced tr /\ ((forall e, r <> Exc (AgentError e)) -> steady tr).

(** The prompt of a merge call. *)
Definition is_batch_prompt (p : pystr) : Prop := exists batch, p = batch_prompt batch.

(** Stubs of the two network calls: a video with automatic captions in
    French and English and manual subtitles in English, and a server that
    answers every URL with the same marked-up body. *)
Module StubNet.

Definition info : video_info :=
  {| automatic_captions :=
       Some [(str "fr", [{| format_url := Some (str "https://caps/fr") |}]);
             (str "en", [{| format_url := Some (str "https://caps/en.json3") |};
                         {| format_url := Some (str "https://caps/en.vtt") |}])];
     subtitles := Some [(str "en", [{| format_url := Some (str "https://subs/en") |}])] |}.

Definition extract_info (video_url : pystr) : option video_info := Some info.

Definition http_get (url : pystr) : option pystr :=
  Some (str "<c> Hello</c>   big <b>world</b>. Bye. ").

End StubNet.

(** ** Examples *)

Example chunk_text_abc :
  chunk_text (str "A. B. C.") 1 = [str "A."; str "B."; str "C."].
Proof. reflexivity. Qed.

Example chunk_text_two_spaces :
  chunk_text (str "Hi there!  How are you? Fine.") 4
  = [str "Hi there!"; str "How are you? Fine."].
Proof. reflexivity. Qed.

Example re_split_trailing :
  re_split (str "A. ") = [str "A."; []].
Proof. reflexivity. Qed.

Example split_words :
  split (str "  a bc  d ") = [str "a"; str "bc"; str "d"].
Proof. reflexivity. Qed.

Example strip_ex : strip (str "  a b ") = str "a b".
Proof. reflexivity. Qed.

Example py_range_10_3 : py_range 0 10 3 = Some [0; 3; 6; 9].
Proof. reflexivity. Qed.

Example py_range_negative_step : py_range 0 10 (-1) = Some [].
Proof. reflexivity. Qed.

Example py_slice_clamps : py_slice [1; 2; 3; 4] 3 6 = [4].
Proof. reflexivity. Qed.

(** ** Lemmas on strings *)

Lemma cons_word_app w ws ws' : cons_word w (ws ++ ws') = cons_word w ws ++ ws'.
Proof. destruct w; reflexivity. Qed.

(** A whitespace character ends the word before it and starts none. *)
Lemma split_aux_app_space a c b :
  isspace c = true ->
  split_aux (a ++ c :: b) = (fst (split_aux a), snd (split_aux a) ++ split b).
Proof.
  intros Hc. induction a as [|x a IH]; simpl.
  - rewrite Hc. unfold split. destruct (split_aux b); reflexivity.
  - rewrite IH. destruct (split_aux a) as [w ws]; simpl.
    destruct (isspace x); [rewrite cons_word_app|]; reflexivity.
Qed.

Lemma split_app_space a c b :
  isspace c = true -> split (a ++ c :: b) = split a ++ split b.
Proof.
  intros Hc. unfold split at 1 2. rewrite (split_aux_app_space a c b Hc).
  destruct (split_aux a); simpl. apply cons_word_app.
Qed.

Lemma word_count_app_space a b :
  word_count (a ++ str " " ++ b) = word_count a + word_count b.
Proof.
  unfold word_count. change (str " " ++ b) with (SPACE :: b).
  rewrite split_app_space by reflexivity. rewrite length_app. lia.
Qed.

Lemma word_count_nonneg s : 0 <= word_count s.
Proof. unfold word_count. lia. Qed.

Lemma total_words_app g h : total_words (g ++ h) = total_words g + total_words h.
Proof.
  unfold total_words. induction g as [|s g IH]; simpl; [reflexivity|].
  rewrite IH. lia.
Qed.

Lemma total_words_nonneg g : 0 <= total_words g.
Proof.
  unfold total_words. induction g as [|s g IH]; simpl; [lia|].
  pose proof (word_count_nonneg s). lia.
Qed.

(** Joining with spaces keeps the words of the parts apart. *)
Lemma word_count_join g : word_count (join (str " ") g) = total_words g.
Proof.
  induction g as [|s g IH]; [reflexivity|].
  destruct g as [|s' g].
  - unfold total_words; simpl. lia.
  - change (join (str " ") (s :: s' :: g))
      with (s ++ str " " ++ join (str " ") (s' :: g)).
    rewrite word_count_app_space, IH. reflexivity.
Qed.

Lemma lstrip_no_space s : starts_with_space (lstrip s) = false.
Proof.
  induction s as [|c s IH]; simpl; [reflexivity|].
  destruct (isspace c) eqn:E; [exact IH|]. simpl. exact E.
Qed.

Lemma lstrip_suffix s : exists ws, s = ws ++ lstrip s.
Proof.
  induction s as [|c s [ws IH]]; simpl.
  - exists []. reflexivity.
  - destruct (isspace c).
    + exists (c :: ws). simpl. congruence.
    + exists []. reflexivity.
Qed.

Lemma rstrip_prefix s : exists ws, s = rstrip s ++ ws.
Proof.
  unfold rstrip. destruct (lstrip_suffix (rev s)) as [ws H].
  exists (rev ws). rewrite <- rev_app_distr, <- H, rev_involutive. reflexivity.
Qed.

Lemma strip_trimmed s : trimmed (strip s) = true.
Proof.
  unfold trimmed, strip. apply andb_true_iff. split; apply negb_true_iff.
  - destruct (rstrip_prefix (lstrip s)) as [ws H].
    pose proof (lstrip_no_space s) as L. rewrite H in L.
    destruct (rstrip (lstrip s)); [reflexivity | exact L].
  - unfold rstrip. rewrite rev_involutive. apply lstrip_no_space.
Qed.

Lemma isspace_not_terminal c : isspace c = true -> is_terminal c = false.
Proof.
  unfold isspace, is_terminal. intros H.
  repeat (apply orb_false_iff; split); apply N.eqb_neq; intros ->; discriminate H.
Qed.

Lemma whitespace_no_words s : forallb isspace s = true -> split_aux s = ([], []).
Proof.
  induction s as [|c s IH]; simpl; [reflexivity|].
  intros H. apply andb_true_iff in H. destruct H as [Hc Hs].
  rewrite (IH Hs), Hc. reflexivity.
Qed.

Lemma whitespace_one_piece s p :
  forallb isspace s = true -> p = false -> re_split_aux (Scan p) s = (s, []).
Proof.
  revert p. induction s as [|c s IH]; simpl; intros p H ->; [reflexivity|].
  apply andb_true_iff in H. destruct H as [Hc Hs].
  rewrite (IH _ Hs (isspace_not_terminal c Hc)). reflexivity.
Qed.


Section Segmenter.

Variable max_words : Z.

Local Notation "'J'" := (join (str " ")).

Lemma chunk_fold_groups sents : forall G cur n,
  fold_left (chunk_step max_words) sents (map J G, cur, n)
  = let '(G', cur', n') := fold_left (group_step max_words) sents (G, cur, n) in
    (map J G', cur', n').
Proof.
  induction sents as [|s sents IH]; intros G cur n; [reflexivity|].
  cbn [fold_left]. unfold chunk_step at 2, group_step at 2.
  destruct ((n + word_count s >? max_words) && negb (is_empty cur)).
  - rewrite <- IH. rewrite map_app. reflexivity.
  - apply IH.
Qed.

Lemma chunk_text_groups text :
  chunk_text text max_words = map J (chunk_groups text max_words).
Proof.
  unfold chunk_text, chunk_groups.
  pose proof (chunk_fold_groups (re_split text) [] [] 0) as H.
  cbn [map] in H. rewrite H.
  destruct (fold_left (group_step max_words) (re_split text) ([], [], 0))
    as [[G cur] n].
  destruct (is_empty cur); cbn [negb]; [reflexivity|].
  rewrite map_app. reflexivity.
Qed.

Lemma cur_fits cur :
  cur <> [] -> total_words cur <= max_words \/ (length cur <= 1)%nat ->
  group_fits max_words cur.
Proof.
  intros Hne [H|H]; [left; exact H|].
  destruct cur as [|s [|s' cur]]; [congruence| |simpl in H; lia].
  destruct (Z_le_gt_dec (word_count s) max_words) as [Hle|Hgt].
  - left. unfold total_words; simpl. lia.
  - right. exists s. split; [reflexivity|lia].
Qed.

Lemma group_step_inv done G cur n s :
  chunk_inv max_words done G cur n ->
  let '(G', cur', n') := group_step max_words (G, cur, n) s in
  chunk_inv max_words (done ++ [s]) G' cur' n'.
Proof.
  intros [Hc Hne Hl Hf Hcur]. unfold group_step.
  destruct (n + word_count s >? max_words) eqn:Hgt;
    destruct cur as [|c cur]; cbn [is_empty negb andb].
  - split; cbn [app length]; try assumption.
    + rewrite <- Hc, app_nil_r. reflexivity.
    + rewrite Hl. unfold total_words; simpl. lia.
    + right. lia.
  - split.
    + rewrite concat_app. cbn [concat]. rewrite app_nil_r, Hc. reflexivity.
    + apply Forall_app. split; [assumption|]. constructor; [congruence|constructor].
    + unfold total_words; simpl. lia.
    + apply Forall_app. split; [assumption|]. constructor; [|constructor].
      apply cur_fits; [congruence|]. rewrite <- Hl. exact Hcur.
    + right. simpl. lia.
  - split; cbn [app length]; try assumption.
    + rewrite <- Hc, app_nil_r. reflexivity.
    + rewrite Hl. unfold total_words; simpl. lia.
    + right. lia.
  - split; try assumption.
    + rewrite app_assoc, Hc. reflexivity.
    + rewrite total_words_app, Hl. unfold total_words at 3; simpl. lia.
    + left. rewrite Z.gtb_ltb in Hgt. apply Z.ltb_ge in Hgt. exact Hgt.
Qed.

Lemma group_fold_inv sents : forall done G cur n,
  chunk_inv max_words done G cur n ->
  let '(G', cur', n') := fold_left (group_step max_words) sents (G, cur, n) in
  chunk_inv max_words (done ++ sents) G' cur' n'.
Proof.
  induction sents as [|s sents IH]; intros done G cur n H.
  - cbn [fold_left]. rewrite app_nil_r. exact H.
  - cbn [fold_left]. pose proof (group_step_inv done G cur n s H) as Hs.
    destruct (group_step max_words (G, cur, n) s) as [[G1 cur1] n1].
    specialize (IH _ _ _ _ Hs).
    replace (done ++ s :: sents) with ((done ++ [s]) ++ sents)
      by (rewrite <- app_assoc; reflexivity).
    exact IH.
Qed.

(** The groups are the sentences of the text, in order, each exactly once,
    no group is empty, and every group fits. *)
Lemma chunk_groups_spec text :
  concat (chunk_groups text max_words) = re_split text
  /\ Forall (fun g => g <> []) (chunk_groups text max_words)
  /\ Forall (group_fits max_words) (chunk_groups text max_words).
Proof.
  unfold chunk_groups.
  assert (H0 : chunk_inv max_words [] [] [] 0).
  { split; try constructor; simpl; lia. }
  pose proof (group_fold_inv (re_split text) _ _ _ _ H0) as H.
  destruct (fold_left (group_step max_words) (re_split text) ([], [], 0))
    as [[G cur] n].
  destruct H as [Hc Hne Hl Hf Hcur]. cbn [app] in Hc.
  destruct cur as [|c cur]; cbn [is_empty negb].
  - rewrite app_nil_r in Hc. auto.
  - split; [|split].
    + rewrite concat_app. cbn [concat]. rewrite app_nil_r. exact Hc.
    + apply Forall_app. split; [assumption|]. constructor; [congruence|constructor].
    + apply Forall_app. split; [assumption|]. constructor; [|constructor].
      apply cur_fits; [congruence|]. rewrite <- Hl. exact Hcur.
Qed.

Lemma re_split_nonempty text : re_split text <> [].
Proof. unfold re_split. destruct (re_split_aux (Scan false) text). congruence. Qed.

Lemma chunk_text_nonempty text : chunk_text text max_words <> [].
Proof.
  rewrite chunk_text_groups.
  destruct (chunk_groups_spec text) as [Hc _].
  destruct (chunk_groups text max_words); [|discriminate].
  simpl in Hc. symmetry in Hc. exfalso. exact (re_split_nonempty text Hc).
Qed.

End Segmenter.

Section Resplit.

Local Notation "'J'" := (join (str " ")).

Lemma piece_cons c p h :
  (p = true -> is_space c = false) ->
  piece_from (is_terminal c) h -> piece_from p (c :: h).
Proof.
  unfold piece_from. intros Hp P. simpl. rewrite P.
  destruct p; [rewrite (Hp eq_refl)|]; reflexivity.
Qed.

Lemma re_split_aux_chain text : forall m h t,
  re_split_aux m text = (h, t) ->
  match m with
  | Scan p =>
      piece_from p h /\ (t <> [] -> end_state p h = true /\ no_lead (hd [] t)) /\ chain t
  | Skip => no_lead h /\ chain (h :: t)
  end.
Proof.
  induction text as [|c text IH]; intros m h t H.
  - simpl in H. injection H as <- <-.
    destruct m; simpl; unfold piece_from; simpl; intuition congruence.
  - destruct m as [[|]|]; simpl in H.
    + destruct (is_space c) eqn:Hsp.
      * destruct (re_split_aux Skip text) as [h' t'] eqn:E.
        injection H as <- <-. destruct (IH _ _ _ E) as [N C].
        split; [reflexivity|]. split; [|exact C]. intros _. split; [reflexivity|exact N].
      * destruct (re_split_aux (Scan (is_terminal c)) text) as [h' t'] eqn:E.
        injection H as <- <-. destruct (IH _ _ _ E) as (P1 & P2 & P3).
        split; [apply piece_cons; auto|]. split; [exact P2|exact P3].
    + destruct (re_split_aux (Scan (is_terminal c)) text) as [h' t'] eqn:E.
      injection H as <- <-. destruct (IH _ _ _ E) as (P1 & P2 & P3).
      split; [apply piece_cons; [discriminate|auto]|]. split; [exact P2|exact P3].
    + destruct (is_space c) eqn:Hsp.
      * exact (IH _ _ _ H).
      * destruct (re_split_aux (Scan (is_terminal c)) text) as [h' t'] eqn:E.
        injection H as <- <-. destruct (IH _ _ _ E) as (P1 & P2 & P3).
        split; [exact Hsp|]. simpl.
        split; [apply piece_cons; [discriminate|auto]|]. split; [exact P2|exact P3].
Qed.

Lemma re_split_chain text : chain (re_split text).
Proof.
  unfold re_split. destruct (re_split_aux (Scan false) text) as [h t] eqn:E.
  exact (re_split_aux_chain _ _ _ _ E).
Qed.

Lemma piece_app s : forall p t,
  piece_from p s ->
  re_split_aux (Scan p) (s ++ t)
  = let (h, tl) := re_split_aux (Scan (end_state p s)) t in (s ++ h, tl).
Proof.
  induction s as [|c s IH]; intros p t H.
  - simpl. destruct (re_split_aux (Scan p) t). reflexivity.
  - unfold piece_from in H. simpl in H.
    assert (Hs : piece_from (is_terminal c) s /\ (p = true -> is_space c = false)).
    { destruct p; [destruct (is_space c)|].
      - destruct (re_split_aux Skip s); discriminate.
      - destruct (re_split_aux (Scan (is_terminal c)) s) eqn:E.
        injection H as -> ->. auto.
      - destruct (re_split_aux (Scan (is_terminal c)) s) eqn:E.
        injection H as -> ->. split; [exact E|discriminate]. }
    destruct Hs as [Hs Hp].
    change (end_state p (c :: s)) with (end_state (is_terminal c) s).
    specialize (IH _ t Hs). simpl.
    destruct p; [rewrite (Hp eq_refl)|]; rewrite IH;
      destruct (re_split_aux (Scan (end_state (is_terminal c) s)) t); reflexivity.
Qed.

Lemma skip_no_lead s : no_lead s -> re_split_aux Skip s = re_split_aux (Scan false) s.
Proof. destruct s as [|c s]; simpl; [reflexivity|]. intros ->. reflexivity. Qed.

Lemma no_lead_join s rest :
  no_lead s -> (rest <> [] -> s <> []) -> no_lead (J (s :: rest)).
Proof.
  intros N H. destruct rest as [|s' rest]; [exact N|].
  change (J (s :: s' :: rest)) with (s ++ str " " ++ J (s' :: rest)).
  destruct s as [|c s]; [exfalso; apply H; congruence|exact N].
Qed.

Lemma re_split_join g :
  g <> [] -> chain g -> re_split_aux (Scan false) (J g) = (hd [] g, tl g).
Proof.
  induction g as [|s g IH]; intros Hne Hc; [congruence|].
  destruct g as [|s2 rest].
  - simpl in *. apply Hc.
  - destruct Hc as (P & L & C). destruct L as [E N]; [discriminate|].
    change (J (s :: s2 :: rest)) with (s ++ SPACE :: J (s2 :: rest)).
    rewrite (piece_app s false _ P), E.
    cbn [re_split_aux]. change (is_space SPACE) with true. cbv iota.
    rewrite skip_no_lead.
    + rewrite IH by (congruence || exact C). simpl. rewrite app_nil_r. reflexivity.
    + apply no_lead_join; [exact N|].
      intros Hr ->. destruct C as (_ & L & _). destruct (L Hr) as [E' _]. discriminate.
Qed.

Lemma chain_app l1 l2 : chain (l1 ++ l2) -> chain l1 /\ chain l2.
Proof.
  induction l1 as [|s l1 IH]; simpl; [auto|].
  intros (P & L & C). destruct (IH C) as [C1 C2].
  split; [|exact C2]. split; [exact P|]. split; [|exact C1].
  intros Hne. destruct l1 as [|s1 l1]; [congruence|]. apply L. discriminate.
Qed.

Lemma chain_concat G : chain (concat G) -> Forall chain G.
Proof.
  induction G as [|g G IH]; simpl; intros H; constructor;
    apply chain_app in H; destruct H; auto.
Qed.

Lemma re_split_groups G :
  Forall chain G -> Forall (fun g => g <> []) G ->
  concat (map re_split (map J G)) = concat G.
Proof.
  induction 1 as [|g G Hg HG IH]; intros Hne; [reflexivity|].
  inversion Hne as [|? ? Hg0 HG0]; subst. simpl. rewrite (IH HG0). f_equal.
  unfold re_split. rewrite (re_split_join g Hg0 Hg).
  destruct g; [congruence|reflexivity].
Qed.

End Resplit.

(** ** Theorems on the Segmenter *)

Lemma chunk_text_empty max_words : chunk_text [] max_words = [[]].
Proof.
  unfold chunk_text, re_split. cbn [re_split_aux fold_left]. unfold chunk_step.
  cbn [is_empty negb]. rewrite andb_false_r. reflexivity.
Qed.

(** The loop of [chunk_text] leaves [cur] non-empty as soon as it has seen
    one sentence, and [re.split] always gives at least one: the final
    [if cur:] is taken for every text and every [max_words]. *)
Lemma chunk_step_cur max_words st s :
  is_empty (snd (fst (chunk_step max_words st s))) = false.
Proof.
  destruct st as [[chunks cur] cur_len]. unfold chunk_step.
  destruct ((cur_len + word_count s >? max_words) && negb (is_empty cur));
    [reflexivity|]. destruct cur; reflexivity.
Qed.

Lemma chunk_text_final_guard text max_words :
  is_empty (snd (fst (fold_left (chunk_step max_words) (re_split text) ([], [], 0))))
  = false.
Proof.
  destruct (exists_last (re_split_nonempty text)) as (sents & s & ->).
  rewrite fold_left_app. cbn [fold_left]. apply chunk_step_cur.
Qed.

(** C3: the code at the inputs of the claim.  For every text that is empty
    or consists only of whitespace, and every [max_words], [chunk_text]
    returns one chunk, which is the text itself and holds no word; the
    claim has the empty list there.  The guards [and cur] and [if cur:] are
    there to emit no chunk when no sentence was gathered, but the final one
    never fails ([chunk_text_final_guard]). *)
Theorem chunk_text_whitespace text max_words :
  forallb isspace text = true ->
  chunk_text text max_words = [text] /\ word_count text = 0.
Proof.
  intros H. unfold chunk_text, re_split, word_count, split.
  rewrite (whitespace_one_piece text false H eq_refl).
  cbn [fold_left]. unfold chunk_step, word_count, split.
  rewrite (whitespace_no_words text H). cbn [is_empty negb andb].
  rewrite andb_false_r. split; reflexivity.
Qed.

Lemma chunk_text_whitespace_witness :
  forallb isspace [] = true
  /\ chunk_text [] default_max_words = [[]] /\ word_count [] = 0.
Proof.
  split; [reflexivity | apply (chunk_text_whitespace [] default_max_words); reflexivity].
Defined.

(** The same on the empty text and on a text of spaces, evaluated: the
    result has one element. *)
Lemma chunk_text_empty_input_one_chunk :
  forallb isspace [] = true
  /\ chunk_text [] default_max_words = [[]]
  /\ length (chunk_text [] default_max_words) <> 0%nat
  /\ length (chunk_text (str "  ") default_max_words) <> 0%nat.
Proof. repeat split; (reflexivity || discriminate). Qed.

(** C4: for every text and every [max_words > 0], the sentences of the
    chunks, taken chunk after chunk, are exactly the sentences of the text:
    every chunk is the join of a run of consecutive sentences, the runs
    follow one another and cover the sentences once, and splitting each
    chunk as the text was split gives back its run. *)
Theorem chunk_text_keeps_sentences text max_words :
  0 < max_words ->
  concat (map re_split (chunk_text text max_words)) = re_split text
  /\ chunk_text text max_words = map (join (str " ")) (chunk_groups text max_words)
  /\ concat (chunk_groups text max_words) = re_split text
  /\ Forall (fun g => g <> []) (chunk_groups text max_words).
Proof.
  intros _. destruct (chunk_groups_spec max_words text) as (Hc & Hne & _).
  rewrite chunk_text_groups. repeat split; try assumption.
  rewrite re_split_groups; [exact Hc| |exact Hne].
  apply chain_concat. rewrite Hc. apply re_split_chain.
Qed.

Lemma chunk_text_keeps_sentences_witness :
  0 < 1
  /\ concat (map re_split (chunk_text (str "A. B. C.") 1)) = re_split (str "A. B. C.").
Proof.
  split; [lia | apply (chunk_text_keeps_sentences (str "A. B. C.") 1); lia].
Defined.

(** C5: for every text and every [max_words > 0], every chunk has at most
    [max_words] words, unless it is a single sentence of the text that has
    more words than that by itself; and chunks are made of whole sentences. *)
Theorem chunk_text_word_bound text max_words :
  0 < max_words ->
  Forall (fun chunk =>
            word_count chunk <= max_words
            \/ (In chunk (re_split text) /\ max_words < word_count chunk))
         (chunk_text text max_words)
  /\ chunk_text text max_words = map (join (str " ")) (chunk_groups text max_words)
  /\ concat (chunk_groups text max_words) = re_split text.
Proof.
  intros _. destruct (chunk_groups_spec max_words text) as (Hc & _ & Hf).
  rewrite chunk_text_groups. repeat split; try assumption.
  apply Forall_map. rewrite Forall_forall in *. intros g Hg.
  destruct (Hf g Hg) as [H|(s & -> & H)].
  - left. rewrite word_count_join. exact H.
  - right. simpl. split; [|exact H].
    rewrite <- Hc. apply in_concat. exists [s]. split; [exact Hg|left; reflexivity].
Qed.

Lemma chunk_text_word_bound_witness :
  0 < 4
  /\ chunk_text (str "One two three four five. Six.") 4
     = [str "One two three four five."; str "Six."]
  /\ Forall (fun chunk =>
               word_count chunk <= 4
               \/ (In chunk (re_split (str "One two three four five. Six."))
                   /\ 4 < word_count chunk))
            (chunk_text (str "One two three four five. Six.") 4).
Proof.
  split; [lia|]. split; [reflexivity|].
  apply (chunk_text_word_bound (str "One two three four five. Six.") 4); lia.
Defined.

(** ** Lemmas on the summariser *)

Section SummarizerFacts.

Context {agent_state object failure : Type}.
Variable py_str : object -> pystr.
Variable agent_run : agent_state -> pystr -> agent_state * @outcome object failure.

Local Notation "'leaf'" := (summarize_chunks py_str agent_run).
Local Notation "'batches'" := (merge_batches py_str agent_run).
Local Notation "'pass'" := (merge_pass py_str agent_run).
Local Notation "'loop'" := (merge_loop py_str agent_run).

Lemma summarize_chunks_cons chunk rest acc st :
  leaf (chunk :: rest) acc st
  = match agent_run st (leaf_prompt chunk) with
    | (st1, Returns v) =>
        let '(st2, tr, r) := leaf rest (acc ++ [capture py_str v]) st1 in
        (st2, Run (leaf_prompt chunk) (Returns v) :: Sleep :: tr, r)
    | (st1, Raises e) =>
        (st1, [Run (leaf_prompt chunk) (Raises e)], Exc (AgentError e))
    end.
Proof.
  cbn [summarize_chunks]. unfold bind, call_agent, sleep.
  destruct (agent_run st (leaf_prompt chunk)) as [st1 [v|e]]; [|reflexivity].
  destruct (leaf rest (acc ++ [capture py_str v]) st1) as [[st2 tr] r].
  destruct r; reflexivity.
Qed.

Lemma merge_batches_cons i rest b l acc st :
  batches (i :: rest) b l acc st
  = let prompt := batch_prompt (py_slice l i (i + b)) in
    match agent_run st prompt with
    | (st1, Returns v) =>
        let '(st2, tr, r) := batches rest b l (acc ++ [capture py_str v]) st1 in
        (st2, Run prompt (Returns v) :: Sleep :: tr, r)
    | (st1, Raises e) => (st1, [Run prompt (Raises e)], Exc (AgentError e))
    end.
Proof.
  cbn [merge_batches]. unfold bind, call_agent, sleep. cbv zeta.
  destruct (agent_run st (batch_prompt (py_slice l i (i + b)))) as [st1 [v|e]];
    [|reflexivity].
  destruct (batches rest b l (acc ++ [capture py_str v]) st1) as [[st2 tr] r].
  destruct r; reflexivity.
Qed.

Lemma merge_loop_step fuel b l st :
  (1 < length l)%nat ->
  loop (S fuel) b l st
  = let '(st1, tr1, r) := pass b l st in
    match r with
    | Ok merged => let '(st2, tr2, r2) := loop fuel b merged st1 in (st2, tr1 ++ tr2, r2)
    | Exc e => (st1, tr1, Exc e)
    | Running => (st1, tr1, Running)
    end.
Proof.
  intros H. cbn [merge_loop]. apply Nat.ltb_lt in H. rewrite H. reflexivity.
Qed.

Lemma merge_loop_done fuel b l st :
  (length l <= 1)%nat -> loop fuel b l st = (st, [], Ok l).
Proof.
  intros H. apply Nat.ltb_ge in H. destruct fuel; cbn [merge_loop]; rewrite H; reflexivity.
Qed.

Lemma merge_loop_no_fuel b l st :
  (1 < length l)%nat -> loop 0 b l st = (st, [], Running).
Proof. intros H. apply Nat.ltb_lt in H. cbn [merge_loop]. rewrite H. reflexivity. Qed.

(** *** Runs with an agent that always returns *)

Section Reliable.

Hypothesis agent_reliable : reliable agent_run.

Lemma summarize_chunks_reliable chunks : forall acc st,
  exists st' tr outs,
    leaf chunks acc st = (st', tr, Ok (acc ++ outs))
    /\ length outs = length chunks
    /\ prompts tr = map leaf_prompt chunks.
Proof.
  induction chunks as [|c chunks IH]; intros acc st.
  - exists st, [], []. rewrite app_nil_r. repeat split.
  - rewrite summarize_chunks_cons.
    destruct (agent_reliable st (leaf_prompt c)) as [v Hv].
    destruct (agent_run st (leaf_prompt c)) as [st1 out]. simpl in Hv. subst out.
    destruct (IH (acc ++ [capture py_str v]) st1) as (st2 & tr & outs & E & L & P).
    rewrite E. exists st2, (Run (leaf_prompt c) (Returns v) :: Sleep :: tr),
      (capture py_str v :: outs).
    rewrite <- app_assoc. repeat split; simpl; congruence.
Qed.

Lemma merge_batches_reliable b l indices : forall acc st,
  exists st' tr outs,
    batches indices b l acc st = (st', tr, Ok (acc ++ outs))
    /\ length outs = length indices
    /\ prompts tr = map (fun i => batch_prompt (py_slice l i (i + b))) indices.
Proof.
  induction indices as [|i indices IH]; intros acc st.
  - exists st, [], []. rewrite app_nil_r. repeat split.
  - rewrite merge_batches_cons. cbv zeta.
    destruct (agent_reliable st (batch_prompt (py_slice l i (i + b)))) as [v Hv].
    destruct (agent_run st _) as [st1 out]. simpl in Hv. subst out.
    destruct (IH (acc ++ [capture py_str v]) st1) as (st2 & tr & outs & E & L & P).
    rewrite E. exists st2, (Run (batch_prompt (py_slice l i (i + b))) (Returns v) :: Sleep :: tr),
      (capture py_str v :: outs).
    rewrite <- app_assoc. repeat split; simpl; congruence.
Qed.

(** A merge pass makes one call per group and gives one summary per group. *)
Lemma merge_pass_reliable b l st :
  b <> 0 ->
  exists st' tr merged,
    pass b l st = (st', tr, Ok merged)
    /\ length merged = next_size b (length l)
    /\ prompts tr = map batch_prompt (merge_groups b l).
Proof.
  intros Hb. unfold merge_pass, merge_groups, next_size, py_range.
  apply Z.eqb_neq in Hb. rewrite Hb.
  destruct (merge_batches_reliable b l
              (map (fun k => 0 + Z.of_nat k * b)
                   (seq 0 (Z.to_nat (range_len 0 (Z.of_nat (length l)) b)))) [] st)
    as (st' & tr & outs & E & L & P).
  exists st', tr, outs. rewrite E. split; [reflexivity|]. split.
  - rewrite L, length_map, length_seq. reflexivity.
  - rewrite P, !map_map. reflexivity.
Qed.

Lemma merge_passes_sizes b : b <> 0 -> forall fuel l st,
  map (@length _) (merge_passes py_str agent_run fuel b l st)
  = pass_sizes fuel b (length l).
Proof.
  intros Hb. induction fuel as [|fuel IH]; intros l st.
  - cbn [merge_passes pass_sizes]. destruct (1 <? length l)%nat; reflexivity.
  - cbn [merge_passes pass_sizes]. destruct (1 <? length l)%nat; [|reflexivity].
    destruct (merge_pass_reliable b l st Hb) as (st' & tr & merged & E & L & _).
    rewrite E. cbn [map]. rewrite IH, L. reflexivity.
Qed.

End Reliable.

End SummarizerFacts.

(** ** The groups of a merge pass *)

Section Groups.

Lemma firstn_add_skipn {A} (a b : nat) : forall l : list A,
  firstn (a + b) l = firstn a l ++ firstn b (skipn a l).
Proof.
  induction a as [|a IH]; intros l; [reflexivity|].
  destruct l as [|x l]; simpl; [rewrite firstn_nil; reflexivity|].
  rewrite IH. reflexivity.
Qed.

Lemma nth_map_seq {A} (f : nat -> A) (c k : nat) (d : A) :
  (k < c)%nat -> nth k (map f (seq 0 c)) d = f k.
Proof.
  intros H. rewrite nth_indep with (d' := f 0%nat) by (rewrite length_map, length_seq; lia).
  rewrite map_nth, seq_nth by lia. reflexivity.
Qed.

Lemma firstn_min_length {A} (m : nat) (l : list A) :
  firstn (Nat.min m (length l)) l = firstn m l.
Proof.
  destruct (Nat.le_ge_cases m (length l)) as [H|H].
  - rewrite Nat.min_l by exact H. reflexivity.
  - rewrite Nat.min_r by exact H. rewrite firstn_all, firstn_all2 by exact H. reflexivity.
Qed.

(** A slice of [b] elements from a non-negative index is a [firstn] of a
    [skipn]; the clamping of the upper bound only shortens the last one. *)
Lemma py_slice_batch {A} (l : list A) (i b : Z) :
  0 <= i -> 0 < b ->
  py_slice l i (i + b) = firstn (Z.to_nat b) (skipn (Z.to_nat i) l).
Proof.
  intros Hi Hb. unfold py_slice, clamp_index.
  destruct (i <? 0) eqn:E1; [apply Z.ltb_lt in E1; lia|].
  destruct (i + b <? 0) eqn:E2; [apply Z.ltb_lt in E2; lia|].
  destruct (Z_le_gt_dec i (Z.of_nat (length l))) as [Hle|Hgt].
  - rewrite (Z.min_l i) by exact Hle.
    rewrite <- (firstn_min_length (Z.to_nat b)). f_equal.
    rewrite length_skipn. lia.
  - rewrite (Z.min_r i) by lia. rewrite (Z.min_r (i + b)) by lia.
    rewrite Z.sub_diag. change (Z.to_nat 0) with 0%nat. cbn [firstn].
    rewrite skipn_all2 by lia. rewrite firstn_nil. reflexivity.
Qed.

Variable b : Z.
Hypothesis b_pos : 0 < b.

Lemma range_len_pos n : (0 < n)%nat ->
  range_len 0 (Z.of_nat n) b = 1 + (Z.of_nat n - 1) / b.
Proof.
  intros H. unfold range_len.
  destruct (0 <? b) eqn:E1; [|apply Z.ltb_ge in E1; lia].
  destruct (0 <? Z.of_nat n) eqn:E2; [|apply Z.ltb_ge in E2; lia].
  cbn [andb]. f_equal. f_equal. lia.
Qed.

Lemma next_size_zero : next_size b 0 = 0%nat.
Proof.
  unfold next_size, range_len. cbn [Z.of_nat].
  rewrite andb_false_r.
  destruct (b <? 0) eqn:E; [apply Z.ltb_lt in E; lia|]. reflexivity.
Qed.

(** The last index of the range is inside the list and the next multiple
    of [b] is beyond it. *)
Lemma next_size_bounds n : (0 < n)%nat ->
  Z.of_nat (next_size b n) * b - b < Z.of_nat n <= Z.of_nat (next_size b n) * b
  /\ (0 < next_size b n)%nat.
Proof.
  intros H. unfold next_size. rewrite (range_len_pos n H).
  pose proof (Z.div_pos (Z.of_nat n - 1) b ltac:(lia) b_pos) as Hq.
  pose proof (Z.mul_div_le (Z.of_nat n - 1) b b_pos) as Hlo.
  pose proof (Z.mul_succ_div_gt (Z.of_nat n - 1) b b_pos) as Hhi.
  rewrite Z2Nat.id by lia. nia.
Qed.

Lemma merge_groups_eq l :
  merge_groups b l
  = map (fun k => firstn (Z.to_nat b) (skipn (k * Z.to_nat b) l))
        (seq 0 (next_size b (length l))).
Proof.
  unfold merge_groups, py_range, next_size.
  destruct (b =? 0) eqn:E; [apply Z.eqb_eq in E; lia|].
  rewrite map_map. apply map_ext. intros k.
  rewrite py_slice_batch by lia. f_equal. f_equal. lia.
Qed.

Lemma concat_firstn_groups (l : list pystr) (B c : nat) :
  concat (map (fun k => firstn B (skipn (k * B) l)) (seq 0 c)) = firstn (c * B) l.
Proof.
  induction c as [|c IH]; [reflexivity|].
  rewrite seq_S, map_app, concat_app, IH. cbn [map concat Nat.add].
  rewrite app_nil_r. rewrite <- firstn_add_skipn. f_equal. lia.
Qed.

(** The groups are contiguous, follow one another without overlap and
    cover the list. *)
Lemma merge_groups_concat l : concat (merge_groups b l) = l.
Proof.
  rewrite merge_groups_eq, concat_firstn_groups.
  destruct l as [|s l]; [apply firstn_nil|].
  apply firstn_all2.
  pose proof (next_size_bounds (length (s :: l)) ltac:(simpl; lia)). nia.
Qed.

Lemma merge_groups_length l : length (merge_groups b l) = next_size b (length l).
Proof. rewrite merge_groups_eq, length_map, length_seq. reflexivity. Qed.

(** Every group has between one and [b] elements, and every group but the
    last has exactly [b]. *)
Lemma merge_groups_sizes l :
  Forall (fun g => (1 <= length g)%nat /\ Z.of_nat (length g) <= b) (merge_groups b l)
  /\ forall k, (S k < length (merge_groups b l))%nat ->
       Z.of_nat (length (nth k (merge_groups b l) [])) = b.
Proof.
  rewrite merge_groups_length, merge_groups_eq.
  destruct (Nat.eq_dec (length l) 0) as [H0|H0].
  { rewrite H0, next_size_zero. split; [constructor|]. intros k Hk. lia. }
  pose proof (next_size_bounds (length l) ltac:(lia)) as [Hb _].
  split.
  - apply Forall_map, Forall_forall. intros k Hk. apply in_seq in Hk.
    rewrite length_firstn, length_skipn. nia.
  - intros k Hk.
    rewrite nth_map_seq by lia.
    rewrite length_firstn, length_skipn. nia.
Qed.

(** With [b >= 2] a pass over two or more summaries gives fewer of them, and
    at least one. *)
Lemma next_size_decreases n :
  2 <= b -> (2 <= n)%nat -> (1 <= next_size b n < n)%nat.
Proof.
  intros Hb Hn. pose proof (next_size_bounds n ltac:(lia)). nia.
Qed.

End Groups.

Lemma pass_sizes_step fuel b n :
  (1 < n)%nat -> pass_sizes (S fuel) b n = n :: pass_sizes fuel b (next_size b n).
Proof. intros H. apply Nat.ltb_lt in H. cbn [pass_sizes]. rewrite H. reflexivity. Qed.

Lemma pass_sizes_stop fuel b n : (n <= 1)%nat -> pass_sizes fuel b n = [n].
Proof.
  intros H. apply Nat.ltb_ge in H. destruct fuel; cbn [pass_sizes]; rewrite H; reflexivity.
Qed.

(** The arithmetic of scenario D of the specification: with 3 in place of
    the code's constant, the loop would take ten summaries through passes
    of 10, 4, 2 and 1. *)
Lemma pass_sizes_10_3 fuel : pass_sizes (3 + fuel) 3 10 = [10; 4; 2; 1]%nat.
Proof.
  cbn [Nat.add]. rewrite pass_sizes_step by lia.
  change (next_size 3 10) with 4%nat. rewrite pass_sizes_step by lia.
  change (next_size 3 4) with 2%nat. rewrite pass_sizes_step by lia.
  change (next_size 3 2) with 1%nat. rewrite pass_sizes_stop by lia. reflexivity.
Qed.

(** With [batch_size = 1] a pass gives as many summaries as it was given. *)
Lemma next_size_one n : next_size 1 n = n.
Proof.
  destruct n as [|n]; [reflexivity|].
  pose proof (next_size_bounds 1 ltac:(lia) (S n) ltac:(lia)). lia.
Qed.

(** With [batch_size = 1] the passes over two or more summaries all have
    the size of the first. *)
Lemma pass_sizes_batch1 fuel n :
  (2 <= n)%nat -> pass_sizes fuel 1 n = repeat n (S fuel).
Proof.
  intros H. induction fuel as [|fuel IH].
  - cbn [pass_sizes repeat]. destruct (Nat.ltb_spec 1 n); [reflexivity|lia].
  - rewrite pass_sizes_step, next_size_one, IH by lia. reflexivity.
Qed.

(** ** The merge loop and failures *)

Section LoopFacts.

Context {agent_state object failure : Type}.
Variable py_str : object -> pystr.
Variable agent_run : agent_state -> pystr -> agent_state * @outcome object failure.

Local Notation "'leaf'" := (summarize_chunks py_str agent_run).
Local Notation "'batches'" := (merge_batches py_str agent_run).
Local Notation "'pass'" := (merge_pass py_str agent_run).
Local Notation "'loop'" := (merge_loop py_str agent_run).

Lemma prompts_app (tr1 tr2 : list (@event object failure)) :
  prompts (tr1 ++ tr2) = prompts tr1 ++ prompts tr2.
Proof. apply flat_map_app. Qed.

Lemma returned_app (tr1 tr2 : list (@event object failure)) :
  returned (tr1 ++ tr2) = returned tr1 ++ returned tr2.
Proof. apply flat_map_app. Qed.

(** *** Every summary is the captured return value of a call *)

Lemma summarize_chunks_captured chunks : forall acc st st' tr l,
  leaf chunks acc st = (st', tr, Ok l) ->
  l = acc ++ map (capture py_str) (returned tr).
Proof.
  induction chunks as [|c chunks IH]; intros acc st st' tr l H.
  - injection H as <- <- <-. rewrite app_nil_r. reflexivity.
  - rewrite summarize_chunks_cons in H.
    destruct (agent_run st (leaf_prompt c)) as [st1 [v|e]]; [|discriminate].
    destruct (leaf chunks (acc ++ [capture py_str v]) st1) as [[st2 tr2] r] eqn:E.
    injection H as <- <- ->. rewrite (IH _ _ _ _ _ E), <- app_assoc. reflexivity.
Qed.

Lemma merge_batches_captured b summaries indices : forall acc st st' tr l,
  batches indices b summaries acc st = (st', tr, Ok l) ->
  l = acc ++ map (capture py_str) (returned tr).
Proof.
  induction indices as [|i indices IH]; intros acc st st' tr l H.
  - injection H as <- <- <-. rewrite app_nil_r. reflexivity.
  - rewrite merge_batches_cons in H. cbv zeta in H.
    destruct (agent_run st _) as [st1 [v|e]]; [|discriminate].
    destruct (batches indices b summaries (acc ++ [capture py_str v]) st1)
      as [[st2 tr2] r] eqn:E.
    injection H as <- <- ->. rewrite (IH _ _ _ _ _ E), <- app_assoc. reflexivity.
Qed.

Lemma merge_pass_captured b summaries st st' tr l :
  pass b summaries st = (st', tr, Ok l) ->
  l = map (capture py_str) (returned tr).
Proof.
  unfold merge_pass. destruct (py_range _ _ _); [|discriminate].
  apply merge_batches_captured.
Qed.

(** *** A failing call ends the run *)

Lemma fail_fast_prefix {A} (pre : list (@event object failure)) (st st' : agent_state)
    tr (r : @res failure A) :
  no_raise pre -> fail_fast (st, tr, r) -> fail_fast (st', pre ++ tr, r).
Proof.
  intros Hp [[Hn Hr]|(pre' & p & e & -> & Hn & ->)].
  - left. split; [apply Forall_app; split; assumption|exact Hr].
  - right. exists (pre ++ pre'), p, e. rewrite app_assoc.
    repeat split. apply Forall_app; split; assumption.
Qed.

Lemma fail_fast_raise {A} (st : agent_state) p (e : failure) :
  fail_fast (object := object) (A := A) (st, [Run p (Raises e)], Exc (AgentError e)).
Proof. right. exists [], p, e. repeat split. constructor. Qed.

Lemma no_raise_returned p v :
  no_raise [Run p (@Returns object failure v); Sleep].
Proof. repeat constructor. Qed.

Lemma summarize_chunks_fail_fast chunks : forall acc st,
  fail_fast (leaf chunks acc st).
Proof.
  induction chunks as [|c chunks IH]; intros acc st.
  - left. split; [constructor|discriminate].
  - rewrite summarize_chunks_cons.
    destruct (agent_run st (leaf_prompt c)) as [st1 [v|e]]; [|apply fail_fast_raise].
    specialize (IH (acc ++ [capture py_str v]) st1).
    destruct (leaf chunks (acc ++ [capture py_str v]) st1) as [[st2 tr] r].
    apply (fail_fast_prefix [Run (leaf_prompt c) (Returns v); Sleep] st2);
      [apply no_raise_returned|exact IH].
Qed.

Lemma merge_batches_fail_fast b summaries indices : forall acc st,
  fail_fast (batches indices b summaries acc st).
Proof.
  induction indices as [|i indices IH]; intros acc st.
  - left. split; [constructor|discriminate].
  - rewrite merge_batches_cons. cbv zeta.
    destruct (agent_run st _) as [st1 [v|e]]; [|apply fail_fast_raise].
    specialize (IH (acc ++ [capture py_str v]) st1).
    destruct (batches indices b summaries (acc ++ [capture py_str v]) st1)
      as [[st2 tr] r].
    apply (fail_fast_prefix [Run _ (Returns v); Sleep] st2);
      [apply no_raise_returned|exact IH].
Qed.

Lemma merge_pass_fail_fast b summaries st : fail_fast (pass b summaries st).
Proof.
  unfold merge_pass. destruct (py_range _ _ _).
  - apply merge_batches_fail_fast.
  - left. split; [constructor|discriminate].
Qed.

(** Sequencing keeps the property. *)
Lemma bind_fail_fast {A B} (m : M agent_state object failure A)
    (f : A -> M agent_state object failure B) st :
  fail_fast (m st) -> (forall a st1, fail_fast (f a st1)) -> fail_fast (bind m f st).
Proof.
  intros Hm Hf. unfold bind. destruct (m st) as [[st1 tr1] [a|e|]].
  - specialize (Hf a st1). destruct (f a st1) as [[st2 tr2] r2].
    destruct Hm as [[Hn _]|(pre & p & e & _ & _ & Hr)]; [|discriminate].
    apply (fail_fast_prefix tr1 st2); assumption.
  - destruct Hm as [[Hn Hr]|(pre & p & e' & Ht & Hn & Hr)].
    + left. split; [exact Hn|]. intros e' He. injection He as ->. exact (Hr e' eq_refl).
    + right. exists pre, p, e'. injection Hr as ->. repeat split; assumption.
  - destruct Hm as [[Hn Hr]|(pre & p & e' & Ht & Hn & Hr)]; [|discriminate].
    left. split; [exact Hn|discriminate].
Qed.

Lemma merge_loop_fail_fast b fuel : forall summaries st,
  fail_fast (loop fuel b summaries st).
Proof.
  induction fuel as [|fuel IH]; intros summaries st; cbn [merge_loop];
    destruct (1 <? length summaries)%nat;
    try (left; split; [constructor|discriminate]).
  apply bind_fail_fast; [apply merge_pass_fail_fast|intros; apply IH].
Qed.

Lemma summarize_with_fail_fast b fuel chunks st :
  fail_fast (summarize_with py_str agent_run b fuel chunks st).
Proof.
  unfold summarize_with, reduce.
  apply bind_fail_fast; [apply summarize_chunks_fail_fast|]. intros l st1.
  apply bind_fail_fast; [apply merge_loop_fail_fast|]. intros l' st2.
  left. split; [constructor|discriminate].
Qed.

(** In the terms of the events: nothing follows a failing call, and the
    run ends with its failure. *)
Lemma fail_fast_last {A} (st : agent_state) (tr : list (@event object failure))
    (r : @res failure A) pre p e post :
  fail_fast (st, tr, r) -> tr = pre ++ Run p (Raises e) :: post ->
  post = [] /\ r = Exc (AgentError e).
Proof.
  intros [[Hn _]|(pre' & p' & e' & Ht & Hn & Hr)] ->.
  - exfalso. apply Forall_app in Hn. destruct Hn as [_ Hn].
    inversion Hn as [|? ? Hx _]. exact Hx.
  - destruct post as [|y post] using rev_ind.
    + apply app_inj_tail in Ht. destruct Ht as [_ Ht]. injection Ht as _ ->. auto.
    + clear IHpost. exfalso.
      rewrite app_comm_cons, app_assoc in Ht. apply app_inj_tail in Ht.
      destruct Ht as [<- _]. apply Forall_app in Hn. destruct Hn as [_ Hn].
      inversion Hn as [|? ? Hx _]. exact Hx.
Qed.

(** *** Termination and divergence of the loop with an agent that returns *)

Section Reliable.

Hypothesis agent_reliable : reliable agent_run.

(** With [batch_size = 1] every pass over two or more summaries gives as
    many summaries again: the loop is still running after any number of
    passes, having called the model once per summary in each. *)
Lemma merge_loop_batch1_runs fuel : forall l st,
  (2 <= length l)%nat ->
  exists st' tr,
    loop fuel 1 l st = (st', tr, Running)
    /\ length (prompts tr) = (fuel * length l)%nat.
Proof.
  induction fuel as [|fuel IH]; intros l st H.
  - exists st, []. rewrite merge_loop_no_fuel by lia. split; reflexivity.
  - rewrite merge_loop_step by lia.
    destruct (merge_pass_reliable py_str agent_run agent_reliable 1 l st ltac:(lia))
      as (st1 & tr1 & merged & E & L & P).
    rewrite next_size_one in L.
    destruct (IH merged st1 ltac:(lia)) as (st2 & tr2 & E2 & P2).
    rewrite E, E2. exists st2, (tr1 ++ tr2). split; [reflexivity|].
    rewrite prompts_app, length_app, P, P2, length_map, merge_groups_length by lia.
    rewrite next_size_one, L. lia.
Qed.

(** With a group size [b >= 1], [fuel] passes are enough for up to
    [b ^ fuel] summaries, and the loop ends with one summary. *)
Lemma merge_loop_terminates b fuel : 0 < b -> forall l st,
  l <> [] -> Z.of_nat (length l) <= b ^ Z.of_nat fuel ->
  exists st' tr s, loop fuel b l st = (st', tr, Ok [s]).
Proof.
  intros Hb. induction fuel as [|fuel IH]; intros l st Hne Hl.
  - destruct l as [|s [|s' l]]; [congruence| |simpl in Hl; lia].
    exists st, [], s. apply merge_loop_done. simpl. lia.
  - destruct l as [|s [|s' l]]; [congruence| |].
    + exists st, [], s. apply merge_loop_done. simpl. lia.
    + set (l0 := s :: s' :: l) in *.
      assert (Hlen : (2 <= length l0)%nat) by (simpl; lia).
      rewrite merge_loop_step by lia.
      destruct (merge_pass_reliable py_str agent_run agent_reliable b l0 st ltac:(lia))
        as (st1 & tr1 & merged & E & L & _).
      pose proof (next_size_bounds b Hb (length l0) ltac:(lia)) as [Hb1 Hb2].
      rewrite Nat2Z.inj_succ, Z.pow_succ_r in Hl by lia.
      destruct (IH merged st1) as (st2 & tr2 & s2 & E2).
      * intros ->. rewrite <- L in Hb2. simpl in Hb2. lia.
      * rewrite L. nia.
      * rewrite E, E2. exists st2, (tr1 ++ tr2), s2. reflexivity.
Qed.

End Reliable.

End LoopFacts.

(** ** Theorems on the summariser *)

Section SummarizerTheorems.

Context {agent_state object failure : Type}.
Variable py_str : object -> pystr.
Variable agent_run : agent_state -> pystr -> agent_state * @outcome object failure.

Local Notation "'leaf'" := (summarize_chunks py_str agent_run).
Local Notation "'pass'" := (merge_pass py_str agent_run).
Local Notation "'loop'" := (merge_loop py_str agent_run).
Local Notation "'reducer'" := (reduce py_str agent_run).
Local Notation "'summarize'" := (summarize_with py_str agent_run).

Lemma reduce_running fuel b l st st' tr :
  loop fuel b l st = (st', tr, Running) -> reducer fuel b l st = (st', tr, Running).
Proof. intros H. unfold reduce, bind. rewrite H. reflexivity. Qed.

Lemma reduce_ok fuel b l st st' tr l' :
  loop fuel b l st = (st', tr, Ok l') ->
  reducer fuel b l st = (st', tr, Ok (final_summary l')).
Proof.
  intros H. unfold reduce, bind, ret. rewrite H, app_nil_r. reflexivity.
Qed.

Lemma summarize_with_leaf b fuel chunks st st1 tr1 summaries :
  leaf chunks [] st = (st1, tr1, Ok summaries) ->
  summarize b fuel chunks st
  = let '(st2, tr2, r) := reducer fuel b summaries st1 in (st2, tr1 ++ tr2, r).
Proof. intros H. unfold summarize_with, bind. rewrite H. reflexivity. Qed.

(** C6: the Reducer leaves a sequence of at most one summary unchanged and
    calls the model for none: the loop gives back the sequence as it is, a
    single summary [s] is returned as [s], and for no summary the empty text
    is returned. *)
Theorem reduce_short_unchanged fuel b summaries st :
  (length summaries <= 1)%nat ->
  loop fuel b summaries st = (st, [], Ok summaries)
  /\ reducer fuel b summaries st = (st, [], Ok (final_summary summaries))
  /\ (forall s, summaries = [s] -> final_summary summaries = s)
  /\ (summaries = [] -> final_summary summaries = []).
Proof.
  intros H. pose proof (merge_loop_done py_str agent_run fuel b summaries st H) as E.
  split; [exact E|]. split; [apply reduce_ok; exact E|].
  split; [intros s ->|intros ->]; reflexivity.
Qed.

(** C2: for the empty transcript the script reports that no transcript is
    available and stops: no model invocation, no other event, no summary. *)
Theorem process_empty_transcript max_words b fuel st :
  process py_str agent_run fuel (Some []) st = (st, [], TranscriptUnavailable)
  /\ process_with py_str agent_run max_words b fuel (Some []) st
     = (st, [], TranscriptUnavailable)
  /\ prompts (snd (fst (process py_str agent_run fuel (Some []) st))) = [].
Proof. repeat split. Qed.

(** C8, as the code has it: no parameter is validated.  For every
    [max_words] and [batch_size], those at or below zero included, and every
    non-empty transcript, [chunk_text] returns at least one chunk and the
    first thing the run does is to invoke the model on the first chunk. *)
Theorem process_no_validation max_words b fuel c text st :
  exists chunk chunks st' tr r,
    chunk_text (c :: text) max_words = chunk :: chunks
    /\ process_with py_str agent_run max_words b fuel (Some (c :: text)) st
       = (st', Run (leaf_prompt chunk) (snd (agent_run st (leaf_prompt chunk))) :: tr, r).
Proof.
  pose proof (chunk_text_nonempty max_words (c :: text)) as Hne.
  destruct (chunk_text (c :: text) max_words) as [|chunk chunks] eqn:E; [congruence|].
  exists chunk, chunks. unfold process_with. rewrite E.
  unfold summarize_with, bind. rewrite summarize_chunks_cons.
  destruct (agent_run st (leaf_prompt chunk)) as [st1 [v|e]]; cbn [snd].
  - destruct (leaf chunks ([] ++ [capture py_str v]) st1) as [[st2 tr] [l| |]].
    + destruct (reducer fuel b l st2) as [[st3 tr3] r3].
      do 3 eexists; split; reflexivity.
    + do 3 eexists; split; reflexivity.
    + do 3 eexists; split; reflexivity.
  - do 3 eexists; split; reflexivity.
Qed.

(** C9, as the code has it: a returned [str] is captured with its leading
    and trailing whitespace removed, any other returned object is captured
    as its [str()] text unchanged; every summary of the leaf pass and of a
    merge pass is the capture of what the model returned for it. *)
Theorem capture_normalizes :
  (forall s, capture py_str (VStr s) = strip s /\ trimmed (strip s) = true)
  /\ (forall o, capture py_str (VObj o) = py_str o)
  /\ (forall chunks st st' tr summaries,
        leaf chunks [] st = (st', tr, Ok summaries) ->
        summaries = map (capture py_str) (returned tr))
  /\ (forall b summaries st st' tr merged,
        pass b summaries st = (st', tr, Ok merged) ->
        merged = map (capture py_str) (returned tr)).
Proof.
  split; [|split; [|split]].
  - intros s. split; [reflexivity|apply strip_trimmed].
  - reflexivity.
  - intros chunks st st' tr summaries H.
    exact (summarize_chunks_captured py_str agent_run chunks [] st st' tr summaries H).
  - intros b summaries st st' tr merged H.
    exact (merge_pass_captured py_str agent_run b summaries st st' tr merged H).
Qed.

(** C10: when the first call returns and the second raises, the run ends
    with that failure after exactly these two calls, both leaf calls: no
    merge call, no summary; the script shows the error.  In any run, nothing
    follows a failing call and the run ends with its failure: no retry. *)
Theorem second_call_failure_ends_run b fuel c1 c2 rest st st1 st2 v e :
  agent_run st (leaf_prompt c1) = (st1, Returns v) ->
  agent_run st1 (leaf_prompt c2) = (st2, Raises e) ->
  let tr := [Run (leaf_prompt c1) (Returns v); Sleep; Run (leaf_prompt c2) (Raises e)] in
  summarize_using_agent py_str agent_run fuel (c1 :: c2 :: rest) st
  = (st2, tr, Exc (AgentError e))
  /\ summarize b fuel (c1 :: c2 :: rest) st = (st2, tr, Exc (AgentError e))
  /\ (forall max_words text,
        chunk_text text max_words = c1 :: c2 :: rest ->
        process_with py_str agent_run max_words b fuel (Some text) st
        = (st2, tr, ErrorShown (AgentError e)))
  /\ (forall b' fuel' chunks st0 st' tr' (r : res failure pystr) pre p e' post,
        summarize b' fuel' chunks st0 = (st', tr', r) ->
        tr' = pre ++ Run p (Raises e') :: post ->
        post = [] /\ r = Exc (AgentError e')).
Proof.
  intros H1 H2 tr.
  assert (Hs : forall b0, summarize b0 fuel (c1 :: c2 :: rest) st
                          = (st2, tr, Exc (AgentError e))).
  { intros b0. unfold summarize_with, bind.
    rewrite summarize_chunks_cons, H1, summarize_chunks_cons, H2. reflexivity. }
  split; [apply Hs|]. split; [apply Hs|]. split.
  - intros max_words text Hc. unfold process_with.
    destruct text as [|x text].
    { rewrite chunk_text_empty in Hc. discriminate Hc. }
    rewrite Hc, Hs. reflexivity.
  - intros b' fuel' chunks st0 st' tr' r pre p e' post Hrun Htr.
    pose proof (summarize_with_fail_fast py_str agent_run b' fuel' chunks st0) as F.
    rewrite Hrun in F. exact (fail_fast_last st' tr' r pre p e' post F Htr).
Qed.

Section Reliable.

Hypothesis agent_reliable : reliable agent_run.

(** With the code's [batch_size = 1] and two or more chunks the run never
    leaves the merge loop: after any number of passes it is still running,
    having called the model once per chunk and once per summary in every
    pass. *)
Lemma summarize_batch1_runs fuel chunks st :
  (2 <= length chunks)%nat ->
  exists st' tr,
    summarize_using_agent py_str agent_run fuel chunks st = (st', tr, Running)
    /\ length (prompts tr) = (length chunks + fuel * length chunks)%nat.
Proof.
  intros H. unfold summarize_using_agent, batch_size.
  destruct (summarize_chunks_reliable py_str agent_run agent_reliable chunks [] st)
    as (st1 & tr1 & outs & E & L & P).
  cbn [app] in E. rewrite (summarize_with_leaf _ _ _ _ _ _ _ E).
  destruct (merge_loop_batch1_runs py_str agent_run agent_reliable fuel outs st1
              ltac:(lia)) as (st2 & tr2 & E2 & P2).
  rewrite (reduce_running _ _ _ _ _ _ E2).
  exists st2, (tr1 ++ tr2). split; [reflexivity|].
  rewrite prompts_app, length_app, P, P2, length_map, L. reflexivity.
Qed.

(** With a group size [b >= 1], [fuel] passes are enough for up to
    [b ^ fuel] chunks: the run returns a summary. *)
Lemma summarize_with_terminates b fuel chunks st :
  0 < b -> chunks <> [] -> Z.of_nat (length chunks) <= b ^ Z.of_nat fuel ->
  exists st' tr s, summarize b fuel chunks st = (st', tr, Ok s).
Proof.
  intros Hb Hne Hl.
  destruct (summarize_chunks_reliable py_str agent_run agent_reliable chunks [] st)
    as (st1 & tr1 & outs & E & L & P).
  cbn [app] in E. rewrite (summarize_with_leaf _ _ _ _ _ _ _ E).
  destruct (merge_loop_terminates py_str agent_run agent_reliable b fuel Hb outs st1)
    as (st2 & tr2 & s & E2).
  - intros ->. destruct chunks; [congruence|discriminate L].
  - rewrite L. exact Hl.
  - rewrite (reduce_ok _ _ _ _ _ _ _ E2). exists st2, (tr1 ++ tr2), s. reflexivity.
Qed.

(** With the code's [batch_size = 1], every pass over two or more summaries
    has the size of the first. *)
Lemma merge_passes_batch1 fuel l st :
  (2 <= length l)%nat ->
  map (@length _) (merge_passes py_str agent_run fuel batch_size l st)
  = repeat (length l) (S fuel).
Proof.
  intros H. unfold batch_size.
  rewrite merge_passes_sizes; [apply pass_sizes_batch1; exact H|exact agent_reliable|lia].
Qed.

End Reliable.

End SummarizerTheorems.

(** ** The scenarios on the stub agents *)

Lemma brief_reliable : reliable Stub.brief_run.
Proof. intros st prompt. eexists. reflexivity. Qed.

Lemma echo_reliable : reliable Stub.echo_run.
Proof. intros st prompt. eexists. reflexivity. Qed.

(** Scenario A of the specification: three one-sentence chunks. *)
Example scenario_three_chunks :
  chunk_text (str "A. B. C.") 1 = [str "A."; str "B."; str "C."]
  /\ exists st tr s,
       summarize_with Stub.no_str Stub.echo_run 3 1 (chunk_text (str "A. B. C.") 1) 0%nat
       = (st, tr, Ok s)
       /\ length (prompts tr) = 4%nat.
Proof. split; [reflexivity|]. do 3 eexists. split; reflexivity. Qed.

(** C1: the run on two chunks, with the agent that always returns, is still
    in the merge loop after any number of passes: the loop with the code's
    [batch_size = 1] makes two calls per pass and keeps two summaries. *)
Theorem two_chunks_never_summarized (fuel : nat) :
  exists st tr,
    summarize_using_agent Stub.no_str Stub.brief_run fuel [str "A."; str "B!"] 0%nat
    = (st, tr, Running)
    /\ length (prompts tr) = (2 + fuel * 2)%nat.
Proof.
  apply (summarize_batch1_runs Stub.no_str Stub.brief_run brief_reliable fuel
           [str "A."; str "B!"] 0%nat).
  simpl. lia.
Qed.


Lemma reduce_short_unchanged_witness :
  (length [str "S"] <= 1)%nat
  /\ merge_loop Stub.no_str Stub.brief_run 5 1 [str "S"] 0%nat = (0%nat, [], Ok [str "S"]).
Proof.
  split; [simpl; lia|].
  apply (reduce_short_unchanged Stub.no_str Stub.brief_run 5 1 [str "S"] 0%nat).
  simpl; lia.
Defined.

Lemma capture_normalizes_witness :
  summarize_chunks Stub.no_str Stub.brief_run [str "A."] [] 0%nat
  = (1%nat, [Run (leaf_prompt (str "A.")) (Returns (VStr (str "."))); Sleep], Ok [str "."])
  /\ [str "."]
     = map (capture Stub.no_str)
           (returned [Run (leaf_prompt (str "A.")) (@Returns _ unit (VStr (str "."))); Sleep]).
Proof.
  split; [reflexivity|].
  destruct (capture_normalizes Stub.no_str Stub.brief_run) as (_ & _ & H & _).
  apply (H [str "A."] 0%nat 1%nat). reflexivity.
Defined.

Lemma second_call_failure_ends_run_witness :
  Stub.second_fails_run 0 (leaf_prompt (str "A.")) = (1%nat, Returns (VStr (str ".")))
  /\ Stub.second_fails_run 1 (leaf_prompt (str "B!")) = (2%nat, Raises tt)
  /\ summarize_using_agent Stub.no_str Stub.second_fails_run 3
       [str "A."; str "B!"; str "C?"] 0%nat
     = (2%nat,
        [Run (leaf_prompt (str "A.")) (Returns (VStr (str "."))); Sleep;
         Run (leaf_prompt (str "B!")) (Raises tt)],
        Exc (AgentError tt)).
Proof.
  split; [reflexivity|]. split; [reflexivity|].
  apply (second_call_failure_ends_run Stub.no_str Stub.second_fails_run 1 3
           (str "A.") (str "B!") [str "C?"] 0%nat 1%nat 2%nat (VStr (str ".")) tt);
    reflexivity.
Defined.

(** C8, as stated, fails: with [max_words = 0] the run goes on to the model
    and gives a summary; with [batch_size = 0] it does so too when there is
    one chunk, and with two chunks the two leaf calls are made before
    [range] raises its [ValueError]; with [batch_size = -1] the merge pass
    is empty and the empty text is returned after the two leaf calls. *)
Lemma process_accepts_nonpositive_parameters :
  (let x := process_with Stub.no_str Stub.brief_run 0 1 3 (Some (str "A.")) 0%nat in
   snd x = SummaryReady (str ".") /\ length (prompts (snd (fst x))) = 1%nat)
  /\ (let x := process_with Stub.no_str Stub.brief_run 150 0 3 (Some (str "A.")) 0%nat in
      snd x = SummaryReady (str ".") /\ length (prompts (snd (fst x))) = 1%nat)
  /\ (let x := process_with Stub.no_str Stub.brief_run 1 0 3 (Some (str "A. B.")) 0%nat in
      snd x = ErrorShown ValueError /\ length (prompts (snd (fst x))) = 2%nat)
  /\ (let x := process_with Stub.no_str Stub.brief_run 1 (-1) 3 (Some (str "A. B.")) 0%nat in
      snd x = SummaryReady [] /\ length (prompts (snd (fst x))) = 2%nat).
Proof. repeat split; reflexivity. Qed.

(** C9, as stated, fails: a returned object whose text starts and ends with
    a space is captured with these spaces. *)
Lemma object_result_not_trimmed :
  exists st tr s,
    summarize_using_agent Stub.text_of Stub.object_run 3 [str "A."] 0%nat = (st, tr, Ok s)
    /\ s = str " . " /\ trimmed s = false.
Proof. do 3 eexists. repeat split; reflexivity. Qed.

(** ** [extract_video_id] *)

Lemma after_literal_spec lit : forall s r,
  after_literal lit s = Some r <-> s = lit ++ r.
Proof.
  induction lit as [|a lit IH]; intros s r; simpl.
  - split; [intros [= ->]; reflexivity|intros ->; reflexivity].
  - destruct s as [|b s]; [split; discriminate|].
    destruct (N.eqb_spec a b) as [->|Hne].
    + rewrite IH. split; [intros ->; reflexivity|intros [= ->]; reflexivity].
    + split; [discriminate|intros [= E _]; congruence].
Qed.

Lemma id_at_spec s id :
  id_at s = Some id <-> valid_id id /\ exists post, s = id ++ post.
Proof.
  unfold id_at, valid_id. split.
  - pose proof (firstn_skipn 11 s) as Hs.
    remember (firstn 11 s) as f eqn:Ef. cbv zeta.
    destruct (length f =? 11)%nat eqn:L; [|discriminate].
    destruct (forallb is_id_char f) eqn:F; [|discriminate].
    intros [= <-]. apply Nat.eqb_eq in L. repeat split; try assumption.
    exists (skipn 11 s). symmetry. exact Hs.
  - intros [[L F] [post ->]].
    assert (E : firstn 11 (id ++ post) = id).
    { rewrite <- L. rewrite firstn_app, Nat.sub_diag, firstn_all. simpl.
      apply app_nil_r. }
    rewrite E, L, F. reflexivity.
Qed.

Lemma match_here_sound markers : forall s id,
  match_here markers s = Some id ->
  valid_id id /\ exists m post, In m markers /\ s = m ++ id ++ post.
Proof.
  induction markers as [|m markers IH]; intros s id H; [discriminate|].
  simpl in H.
  assert (Hrest : match_here markers s = Some id ->
                  valid_id id /\ exists m0 post, In m0 (m :: markers) /\ s = m0 ++ id ++ post).
  { intros H'. destruct (IH _ _ H') as [V (m0 & post & Hin & E)].
    split; [exact V|]. exists m0, post. split; [right; exact Hin|exact E]. }
  destruct (after_literal m s) as [r|] eqn:A; [|auto].
  destruct (id_at r) as [id'|] eqn:I; [|auto].
  injection H as ->. apply after_literal_spec in A. apply id_at_spec in I.
  destruct I as [V [post ->]]. split; [exact V|].
  exists m, post. split; [left; reflexivity|exact A].
Qed.

Lemma match_here_complete markers : forall m id post,
  In m markers -> valid_id id ->
  exists id', match_here markers (m ++ id ++ post) = Some id'.
Proof.
  induction markers as [|m0 markers IH]; intros m id post Hin V; [destruct Hin|].
  simpl. destruct (after_literal m0 (m ++ id ++ post)) as [r|] eqn:A.
  - destruct (id_at r) as [id'|] eqn:I; [eexists; reflexivity|].
    destruct Hin as [->|Hin]; [|exact (IH _ _ _ Hin V)].
    exfalso. apply after_literal_spec in A. apply app_inv_head in A. subst r.
    assert (I' : id_at (id ++ post) = Some id)
      by (apply id_at_spec; split; [exact V|exists post; reflexivity]).
    congruence.
  - destruct Hin as [->|Hin]; [|exact (IH _ _ _ Hin V)].
    exfalso. assert (A' : after_literal m (m ++ id ++ post) = Some (id ++ post))
      by (apply after_literal_spec; reflexivity).
    congruence.
Qed.

(** The search stops at the first position where the pattern matches. *)
Lemma search_id_leftmost url : forall id,
  search_id url = Some id ->
  exists pre s,
    url = pre ++ s /\ match_here id_markers s = Some id
    /\ forall pre' s', url = pre' ++ s' -> (length pre' < length pre)%nat ->
         match_here id_markers s' = None.
Proof.
  induction url as [|c url IH]; intros id H.
  - cbn [search_id] in H. destruct (match_here id_markers []) eqn:M; [|discriminate].
    exists [], []. split; [reflexivity|]. split; [congruence|].
    intros pre' s' _ Hl. simpl in Hl. lia.
  - cbn [search_id] in H. destruct (match_here id_markers (c :: url)) eqn:M.
    + exists [], (c :: url). split; [reflexivity|]. split; [congruence|].
      intros pre' s' _ Hl. simpl in Hl. lia.
    + destruct (IH _ H) as (pre & s & -> & Hm & Hleft).
      exists (c :: pre), s. split; [reflexivity|]. split; [exact Hm|].
      intros pre' s' E Hl. destruct pre' as [|c' pre'].
      * simpl in E. subst s'. exact M.
      * injection E as _ E. apply (Hleft pre' s' E). simpl in Hl. lia.
Qed.

Lemma search_id_found pre : forall s id,
  match_here id_markers s = Some id -> exists id', search_id (pre ++ s) = Some id'.
Proof.
  induction pre as [|c pre IH]; intros s id H.
  - exists id. destruct s; cbn [app search_id]; rewrite H; reflexivity.
  - cbn [app search_id]. destruct (match_here id_markers (c :: pre ++ s)).
    + eexists; reflexivity.
    + exact (IH _ _ H).
Qed.

Lemma clashes_after lit : forall s t,
  clashes lit s = true -> after_literal lit (s ++ t) = None.
Proof.
  induction lit as [|a lit IH]; intros s t H; [discriminate|].
  destruct s as [|b s]; [discriminate|]. simpl in *.
  destruct (a =? b)%N; [apply IH; exact H|reflexivity].
Qed.

Lemma clashes_match_here markers : forall s t,
  forallb (fun m => clashes m s) markers = true -> match_here markers (s ++ t) = None.
Proof.
  induction markers as [|m markers IH]; intros s t H; [reflexivity|].
  simpl in H. apply andb_true_iff in H. destruct H as [Hm Hrest].
  simpl. rewrite (clashes_after m s t Hm). apply IH. exact Hrest.
Qed.

Lemma inert_search pre : forall s,
  inert pre = true -> search_id (pre ++ s) = search_id s.
Proof.
  induction pre as [|c pre IH]; intros s H; [reflexivity|].
  cbn [inert] in H. apply andb_true_iff in H. destruct H as [Hc Hrest].
  cbn [app search_id].
  change (c :: pre ++ s) with ((c :: pre) ++ s).
  rewrite (clashes_match_here id_markers (c :: pre) s Hc). apply IH. exact Hrest.
Qed.

Lemma search_id_at_match s id :
  match_here id_markers s = Some id -> search_id s = Some id.
Proof. intros H. destruct s; cbn [search_id]; rewrite H; reflexivity. Qed.

Lemma search_id_skip c s :
  match_here id_markers (c :: s) = None -> search_id ((c :: nil) ++ s) = search_id s.
Proof. intros H. cbn [app search_id]. rewrite H. reflexivity. Qed.

Lemma id_at_app id rest : valid_id id -> id_at (id ++ rest) = Some id.
Proof. intros V. apply id_at_spec. split; [exact V|exists rest; reflexivity]. Qed.

(** X1: when [extract_video_id] returns an identifier, it is eleven
    characters of the class [A-Za-z0-9_-] that follow one of the five markers
    in the URL, and no marker followed by eleven such characters starts
    further to the left. *)
Theorem extract_video_id_sound url id :
  extract_video_id url = Some id ->
  valid_id id
  /\ exists pre m post,
       In m id_markers /\ url = pre ++ m ++ id ++ post
       /\ forall pre' m' id' post',
            In m' id_markers -> valid_id id' -> url = pre' ++ m' ++ id' ++ post' ->
            (length pre <= length pre')%nat.
Proof.
  intros H. destruct (search_id_leftmost url id H) as (pre & s & -> & Hm & Hleft).
  destruct (match_here_sound _ _ _ Hm) as [V (m & post & Hin & ->)].
  split; [exact V|]. exists pre, m, post. repeat split; try assumption.
  intros pre' m' id' post' Hin' V' E.
  destruct (Nat.le_gt_cases (length pre) (length pre')) as [Hle|Hlt]; [exact Hle|].
  exfalso. pose proof (Hleft pre' _ E Hlt) as Hnone.
  destruct (match_here_complete id_markers m' id' post' Hin' V') as [id'' Hsome].
  congruence.
Qed.

Lemma extract_video_id_sound_witness :
  extract_video_id (str "https://youtu.be/dQw4w9WgXcQ?t=1") = Some (str "dQw4w9WgXcQ")
  /\ valid_id (str "dQw4w9WgXcQ").
Proof.
  split; [reflexivity|].
  apply (extract_video_id_sound (str "https://youtu.be/dQw4w9WgXcQ?t=1")). reflexivity.
Defined.

(** X2: [extract_video_id] raises its [ValueError] only when the URL holds
    no marker followed by eleven identifier characters: whenever the URL
    holds one, an identifier is returned. *)
Theorem extract_video_id_complete pre m id post :
  In m id_markers -> valid_id id ->
  exists id', extract_video_id (pre ++ m ++ id ++ post) = Some id'.
Proof.
  intros Hin V. destruct (match_here_complete id_markers m id post Hin V) as [id' H].
  exact (search_id_found pre _ _ H).
Qed.

Lemma extract_video_id_complete_witness :
  In (str "/embed/") id_markers /\ valid_id (str "dQw4w9WgXcQ")
  /\ exists id',
       extract_video_id
         (str "https://www.youtube.com" ++ str "/embed/" ++ str "dQw4w9WgXcQ" ++ str "?rel=0")
       = Some id'.
Proof.
  assert (Hin : In (str "/embed/") id_markers) by (simpl; auto).
  assert (V : valid_id (str "dQw4w9WgXcQ")) by (split; reflexivity).
  split; [exact Hin|]. split; [exact V|].
  exact (extract_video_id_complete (str "https://www.youtube.com") (str "/embed/")
           (str "dQw4w9WgXcQ") (str "?rel=0") Hin V).
Defined.

(** X3: for every identifier of eleven characters of the class, the watch
    URL the script builds from it, the short [youtu.be] URL and the Shorts
    URL all give back that identifier, whatever follows the identifier in
    the URL (a query string, or further identifier characters, which are
    cut off). *)
Theorem extract_video_id_round_trip id rest :
  valid_id id ->
  extract_video_id (watch_url id ++ rest) = Some id
  /\ extract_video_id (str "https://youtu.be/" ++ id ++ rest) = Some id
  /\ extract_video_id (str "https://youtube.com/shorts/" ++ id ++ rest) = Some id.
Proof.
  intros V. unfold extract_video_id, watch_url. repeat split.
  - change (str "https://www.youtube.com/watch?v=") 
      with (str "https://www.youtube.com/watch?" ++ str "v=").
    rewrite <- !app_assoc.
    rewrite inert_search by reflexivity.
    apply search_id_at_match. cbn. rewrite (id_at_app id rest V). reflexivity.
  - change (str "https://youtu.be/")
      with (str "https:" ++ [47%N] ++ [47%N] ++ str "youtu.be/").
    rewrite <- !app_assoc.
    rewrite inert_search by reflexivity.
    rewrite !search_id_skip by reflexivity.
    apply search_id_at_match. cbn. rewrite (id_at_app id rest V). reflexivity.
  - change (str "https://youtube.com/shorts/")
      with (str "https://youtube.com" ++ [47%N] ++ str "shorts/").
    rewrite <- !app_assoc.
    rewrite inert_search by reflexivity.
    rewrite !search_id_skip by reflexivity.
    apply search_id_at_match. cbn. rewrite (id_at_app id rest V). reflexivity.
Qed.

Lemma extract_video_id_round_trip_witness :
  valid_id (str "dQw4w9WgXcQ")
  /\ extract_video_id (watch_url (str "dQw4w9WgXcQ") ++ str "&t=42s") = Some (str "dQw4w9WgXcQ").
Proof.
  assert (V : valid_id (str "dQw4w9WgXcQ")) by (split; reflexivity).
  split; [exact V|].
  apply (extract_video_id_round_trip (str "dQw4w9WgXcQ") (str "&t=42s") V).
Defined.

(** X4: a URL of fewer than thirteen characters, the empty one included, is
    always rejected: the shortest marker and the identifier need thirteen. *)
Theorem extract_video_id_short_url url :
  (length url < 13)%nat -> extract_video_id url = None.
Proof.
  intros Hl. destruct (extract_video_id url) as [id|] eqn:E; [|reflexivity].
  exfalso. destruct (search_id_leftmost url id E) as (pre & s & -> & Hm & _).
  destruct (match_here_sound _ _ _ Hm) as [[L _] (m & post & Hin & ->)].
  rewrite !length_app, L in Hl.
  assert (2 <= length m)%nat.
  { simpl in Hin. repeat (destruct Hin as [<-|Hin]; [simpl; lia|]). destruct Hin. }
  lia.
Qed.

Lemma extract_video_id_short_url_witness :
  (length (str "v=shortid") < 13)%nat /\ extract_video_id (str "v=shortid") = None.
Proof.
  split; [simpl; lia|]. apply (extract_video_id_short_url (str "v=shortid")). simpl; lia.
Defined.

(** ** Cleaning the subtitles *)

Example clean_subtitles_ex :
  clean_subtitles (str "<c> Hello</c>   big <b>world</b>. ") = str "Hello big world .".
Proof. reflexivity. Qed.

Example sub_tags_empty_brackets : sub_tags (str "a <> b < c") = str "a <> b < c".
Proof. reflexivity. Qed.

Lemma single_spaced_sub_spaces s : forall p r,
  (p = true -> r = true) -> single_spaced_aux p (sub_spaces_aux r s) = true.
Proof.
  induction s as [|c s IH]; intros p r H; [reflexivity|].
  cbn [sub_spaces_aux]. destruct (isspace c) eqn:Ec.
  - destruct r.
    + apply IH. auto.
    + destruct p; [specialize (H eq_refl); discriminate|].
      cbn [single_spaced_aux]. change (isspace SPACE) with true. cbv iota.
      rewrite N.eqb_refl. cbn [negb andb]. apply IH. auto.
  - cbn [single_spaced_aux]. rewrite Ec. apply IH. discriminate.
Qed.

Lemma single_spaced_weaken s p :
  single_spaced_aux p s = true -> single_spaced_aux false s = true.
Proof.
  destruct s as [|c s]; [reflexivity|]. cbn [single_spaced_aux].
  destruct (isspace c); [|auto]. intros H.
  apply andb_true_iff in H. destruct H as [H1 H2].
  apply andb_true_iff in H1. destruct H1 as [H1 _].
  rewrite H1, H2. reflexivity.
Qed.

Lemma single_spaced_lstrip s : forall p,
  single_spaced_aux p s = true -> single_spaced_aux false (lstrip s) = true.
Proof.
  induction s as [|c s IH]; intros p H; [reflexivity|].
  cbn [lstrip]. cbn [single_spaced_aux] in H. destruct (isspace c) eqn:Ec.
  - apply andb_true_iff in H. destruct H as [_ H]. exact (IH _ H).
  - cbn [single_spaced_aux]. rewrite Ec. exact H.
Qed.

Lemma single_spaced_prefix a b : forall p,
  single_spaced_aux p (a ++ b) = true -> single_spaced_aux p a = true.
Proof.
  induction a as [|c a IH]; intros p H; [reflexivity|].
  cbn [app single_spaced_aux] in *. destruct (isspace c).
  - apply andb_true_iff in H. destruct H as [H1 H2].
    rewrite H1, (IH _ H2). reflexivity.
  - exact (IH _ H).
Qed.

Lemma lstrip_split s : exists ws, s = ws ++ lstrip s /\ forallb isspace ws = true.
Proof.
  induction s as [|c s (ws & E & W)]; cbn [lstrip].
  - exists []. split; reflexivity.
  - destruct (isspace c) eqn:Ec.
    + exists (c :: ws). split; [simpl; congruence|]. simpl. rewrite Ec, W. reflexivity.
    + exists []. split; reflexivity.
Qed.

Lemma rstrip_split s : exists ws, s = rstrip s ++ ws /\ forallb isspace ws = true.
Proof.
  unfold rstrip. destruct (lstrip_split (rev s)) as (ws & E & W).
  exists (rev ws). split.
  - rewrite <- rev_app_distr, <- E, rev_involutive. reflexivity.
  - rewrite forallb_forall in *. intros x Hx. apply W. apply in_rev. exact Hx.
Qed.

Lemma single_spaced_strip s :
  single_spaced s = true -> single_spaced (strip s) = true.
Proof.
  unfold single_spaced, strip. intros H.
  pose proof (single_spaced_lstrip s false H) as Hl.
  destruct (rstrip_split (lstrip s)) as (ws & E & _).
  rewrite E in Hl. exact (single_spaced_prefix _ _ _ Hl).
Qed.

(** *** The words are kept *)

Lemma split_cons_space c s : isspace c = true -> split (c :: s) = split s.
Proof. intros H. exact (split_app_space [] c s H). Qed.

Lemma split_sub_spaces s :
  split_aux (sub_spaces_aux false s) = split_aux s
  /\ split (sub_spaces_aux true s) = split s.
Proof.
  induction s as [|c s [IH1 IH2]]; [split; reflexivity|].
  cbn [sub_spaces_aux]. destruct (isspace c) eqn:Ec.
  - assert (E : split_aux (c :: s) = ([], split s)).
    { cbn [split_aux]. unfold split. destruct (split_aux s). rewrite Ec. reflexivity. }
    split.
    + rewrite E. cbn [split_aux]. change (isspace SPACE) with true. cbv iota.
      fold (split (sub_spaces_aux true s)). rewrite <- IH2. unfold split.
      destruct (split_aux (sub_spaces_aux true s)). reflexivity.
    + rewrite IH2. symmetry. apply split_cons_space. exact Ec.
  - assert (E : forall x, split_aux (c :: x)
                          = (c :: fst (split_aux x), snd (split_aux x))).
    { intros x. cbn [split_aux]. destruct (split_aux x). rewrite Ec. reflexivity. }
    split.
    + rewrite !E, IH1. reflexivity.
    + unfold split. rewrite !E, IH1. reflexivity.
Qed.

Lemma split_whitespace ws : forallb isspace ws = true -> split ws = [].
Proof. intros H. unfold split. rewrite (whitespace_no_words ws H). reflexivity. Qed.

Lemma split_app_whitespace a ws :
  forallb isspace ws = true -> split (a ++ ws) = split a.
Proof.
  intros H. destruct ws as [|c ws]; [rewrite app_nil_r; reflexivity|].
  simpl in H. apply andb_true_iff in H. destruct H as [Hc Hws].
  rewrite split_app_space by exact Hc. rewrite (split_whitespace ws Hws).
  apply app_nil_r.
Qed.

Lemma split_whitespace_app ws a :
  forallb isspace ws = true -> split (ws ++ a) = split a.
Proof.
  induction ws as [|c ws IH]; intros H; [reflexivity|].
  simpl in H. apply andb_true_iff in H. destruct H as [Hc Hws].
  cbn [app]. rewrite split_cons_space by exact Hc. exact (IH Hws).
Qed.

Lemma split_strip s : split (strip s) = split s.
Proof.
  unfold strip.
  destruct (rstrip_split (lstrip s)) as (ws & E & W).
  destruct (lstrip_split s) as (ws' & E' & W').
  rewrite E' at 2. rewrite split_whitespace_app by exact W'.
  rewrite E at 2. rewrite split_app_whitespace by exact W. reflexivity.
Qed.

(** *** A normalised text is the join of its words *)

Lemma no_trailing_space_snoc l x : no_trailing_space (l ++ [x]) = negb (isspace x).
Proof.
  induction l as [|c l IH]; [reflexivity|].
  cbn [app no_trailing_space]. destruct (l ++ [x]) eqn:E; [|exact IH].
  destruct l; discriminate.
Qed.

Lemma trimmed_no_trailing_space s : trimmed s = true -> no_trailing_space s = true.
Proof.
  unfold trimmed. intros H. apply andb_true_iff in H. destruct H as [_ H].
  destruct s as [|c s] using rev_ind; [reflexivity|].
  rewrite no_trailing_space_snoc. rewrite rev_app_distr in H. exact H.
Qed.

Lemma no_trailing_space_tail c r :
  r <> [] -> no_trailing_space (c :: r) = true -> no_trailing_space r = true.
Proof. destruct r; [congruence|auto]. Qed.

(** A text without trailing whitespace whose whitespace is single spaces is
    its first word followed by its other words, a space before each. *)
Lemma single_spaced_words n : forall p,
  single_spaced_aux p n = true -> no_trailing_space n = true ->
  n = fst (split_aux n) ++ spaced (snd (split_aux n)).
Proof.
  induction n as [|c r IH]; intros p H T; [reflexivity|].
  cbn [single_spaced_aux] in H. cbn [split_aux].
  destruct (isspace c) eqn:Ec.
  - apply andb_true_iff in H. destruct H as [H1 H2].
    apply andb_true_iff in H1. destruct H1 as [Hc _]. apply N.eqb_eq in Hc. subst c.
    destruct r as [|c' r'].
    { cbn [no_trailing_space] in T. rewrite Ec in T. discriminate. }
    assert (Hne : c' :: r' <> []) by discriminate.
    pose proof (IH true H2 (no_trailing_space_tail _ _ Hne T)) as E.
    cbn [single_spaced_aux] in H2. destruct (isspace c') eqn:Ec'.
    { rewrite andb_false_r in H2. discriminate. }
    cbn [split_aux] in E |- *. rewrite Ec' in E |- *.
    destruct (split_aux r') as [w ws]. cbn [fst snd] in E |- *.
    cbn [cons_word is_empty app]. unfold spaced in *. cbn [map concat].
    rewrite E at 1. reflexivity.
  - destruct r as [|c' r'].
    { reflexivity. }
    assert (Hne : c' :: r' <> []) by discriminate.
    pose proof (IH false H (no_trailing_space_tail _ _ Hne T)) as E.
    destruct (split_aux (c' :: r')) as [w ws]. cbn [fst snd] in E |- *.
    rewrite E at 1. reflexivity.
Qed.

Lemma join_spaced w ws : join (str " ") (w :: ws) = w ++ spaced ws.
Proof.
  revert w. induction ws as [|w' ws IH]; intros w.
  - simpl. rewrite app_nil_r. reflexivity.
  - change (join (str " ") (w :: w' :: ws)) with (w ++ SPACE :: join (str " ") (w' :: ws)).
    rewrite IH. reflexivity.
Qed.

Lemma normalised_join_split n :
  trimmed n = true -> single_spaced n = true -> join (str " ") (split n) = n.
Proof.
  intros Ht Hs.
  pose proof (single_spaced_words n false Hs (trimmed_no_trailing_space n Ht)) as E.
  unfold split. destruct n as [|c r]; [reflexivity|].
  unfold trimmed in Ht. apply andb_true_iff in Ht. destruct Ht as [Ht _].
  cbn [starts_with_space] in Ht. apply negb_true_iff in Ht.
  cbn [split_aux] in E |- *. rewrite Ht in E |- *.
  destruct (split_aux r) as [w ws]. cbn [fst snd] in E.
  cbn [cons_word is_empty]. rewrite join_spaced. symmetry. exact E.
Qed.

(** *** No tag is left *)

Local Notation "'has_gt'" := (existsb (fun x => (x =? GT)%N)).

Lemma no_gt_opens_tag r : has_gt r = false -> opens_tag r = false.
Proof.
  destruct r as [|c r]; [reflexivity|]. cbn [existsb opens_tag]. intros H.
  apply orb_false_iff in H. destruct H as [_ H]. rewrite H. apply andb_false_r.
Qed.

Lemma sub_tags_no_gt s : has_gt s = false -> sub_tags_aux false s = s.
Proof.
  induction s as [|c s IH]; intros H; [reflexivity|].
  cbn [existsb] in H. apply orb_false_iff in H. destruct H as [_ H].
  cbn [sub_tags_aux]. rewrite (no_gt_opens_tag s H), andb_false_r, (IH H). reflexivity.
Qed.

Lemma gt_sub_tags s : forall b, has_gt s = false -> has_gt (sub_tags_aux b s) = false.
Proof.
  induction s as [|c s IH]; intros b H; [reflexivity|].
  cbn [existsb] in H. apply orb_false_iff in H. destruct H as [Hc H].
  cbn [sub_tags_aux]. destruct b.
  - rewrite Hc. apply IH. exact H.
  - rewrite (no_gt_opens_tag s H), andb_false_r. cbn [existsb].
    rewrite Hc, (IH false H). reflexivity.
Qed.

Lemma opens_tag_sub_tags r : opens_tag r = false -> opens_tag (sub_tags_aux false r) = false.
Proof.
  destruct r as [|c r]; [reflexivity|]. cbn [opens_tag]. intros H.
  apply andb_false_iff in H. destruct H as [H|H].
  - apply negb_false_iff in H. apply N.eqb_eq in H. subst c.
    cbn [sub_tags_aux]. change (GT =? LT)%N with false. cbn [andb opens_tag].
    rewrite N.eqb_refl. reflexivity.
  - cbn [sub_tags_aux]. rewrite (no_gt_opens_tag r H), andb_false_r.
    cbn [opens_tag]. rewrite (gt_sub_tags r false H). apply andb_false_r.
Qed.

Lemma no_tag_sub_tags s : forall b, no_tag (sub_tags_aux b s) = true.
Proof.
  induction s as [|c s IH]; intros b; [reflexivity|].
  cbn [sub_tags_aux]. destruct b.
  - destruct (c =? GT)%N; apply IH.
  - destruct ((c =? LT)%N && opens_tag s) eqn:E.
    + cbn [no_tag]. change (SPACE =? LT)%N with false. cbn [andb negb]. apply IH.
    + cbn [no_tag]. rewrite IH, andb_true_r. apply negb_true_iff.
      apply andb_false_iff in E. destruct E as [E|E]; [rewrite E; reflexivity|].
      rewrite (opens_tag_sub_tags s E). apply andb_false_r.
Qed.

Lemma no_tag_fixed s : no_tag s = true -> sub_tags s = s.
Proof.
  unfold sub_tags. induction s as [|c s IH]; intros H; [reflexivity|].
  cbn [no_tag] in H. apply andb_true_iff in H. destruct H as [H1 H2].
  apply negb_true_iff in H1. cbn [sub_tags_aux]. rewrite H1, (IH H2). reflexivity.
Qed.

Lemma gt_sub_spaces s : forall b, has_gt (sub_spaces_aux b s) = has_gt s.
Proof.
  induction s as [|c s IH]; intros b; [reflexivity|].
  cbn [sub_spaces_aux existsb]. destruct (isspace c) eqn:Ec.
  - assert (Hc : (c =? GT)%N = false).
    { apply N.eqb_neq. intros ->. discriminate Ec. }
    rewrite Hc. destruct b; [apply IH|].
    cbn [existsb]. change (SPACE =? GT)%N with false. apply IH.
  - cbn [existsb]. rewrite IH. reflexivity.
Qed.

Lemma opens_tag_sub_spaces r : opens_tag (sub_spaces_aux false r) = opens_tag r.
Proof.
  destruct r as [|c r]; [reflexivity|].
  cbn [sub_spaces_aux opens_tag]. destruct (isspace c) eqn:Ec.
  - assert (Hc : (c =? GT)%N = false).
    { apply N.eqb_neq. intros ->. discriminate Ec. }
    cbn [opens_tag]. change (SPACE =? GT)%N with false. rewrite Hc, gt_sub_spaces.
    reflexivity.
  - cbn [opens_tag]. rewrite gt_sub_spaces. reflexivity.
Qed.

Lemma no_tag_sub_spaces s : forall b, no_tag s = true -> no_tag (sub_spaces_aux b s) = true.
Proof.
  induction s as [|c s IH]; intros b H; [reflexivity|].
  cbn [no_tag] in H. apply andb_true_iff in H. destruct H as [H1 H2].
  cbn [sub_spaces_aux]. destruct (isspace c) eqn:Ec.
  - destruct b; [apply IH; exact H2|].
    cbn [no_tag]. change (SPACE =? LT)%N with false. cbn [andb negb]. apply IH. exact H2.
  - cbn [no_tag]. rewrite opens_tag_sub_spaces, H1, (IH false H2). reflexivity.
Qed.

Lemma no_tag_suffix a b : no_tag (a ++ b) = true -> no_tag b = true.
Proof.
  induction a as [|c a IH]; [auto|]. cbn [app no_tag]. intros H.
  apply andb_true_iff in H. destruct H as [_ H]. exact (IH H).
Qed.

Lemma opens_tag_prefix a b : opens_tag (a ++ b) = false -> opens_tag a = false.
Proof.
  destruct a as [|c a]; [reflexivity|]. cbn [app opens_tag]. intros H.
  apply andb_false_iff in H. destruct H as [H|H]; [rewrite H; reflexivity|].
  rewrite existsb_app in H. apply orb_false_iff in H. destruct H as [H _].
  apply andb_false_iff. right. exact H.
Qed.

Lemma no_tag_prefix a b : no_tag (a ++ b) = true -> no_tag a = true.
Proof.
  induction a as [|c a IH]; [reflexivity|]. cbn [app no_tag]. intros H.
  apply andb_true_iff in H. destruct H as [H1 H2].
  rewrite (IH H2), andb_true_r. apply negb_true_iff. apply negb_true_iff in H1.
  apply andb_false_iff in H1. destruct H1 as [H1|H1]; [rewrite H1; reflexivity|].
  rewrite (opens_tag_prefix a b H1). apply andb_false_r.
Qed.

Lemma no_tag_strip s : no_tag s = true -> no_tag (strip s) = true.
Proof.
  unfold strip. intros H.
  destruct (lstrip_split s) as (ws & E & _). rewrite E in H.
  apply no_tag_suffix in H.
  destruct (rstrip_split (lstrip s)) as (ws' & E' & _). rewrite E' in H.
  exact (no_tag_prefix _ _ H).
Qed.

(** X5: whatever [requests] returned, the cleaned text has no leading or
    trailing whitespace, its only whitespace characters are single spaces
    between words, and no match of the tag pattern is left in it. *)
Theorem clean_subtitles_normalised r_text :
  trimmed (clean_subtitles r_text) = true
  /\ single_spaced (clean_subtitles r_text) = true
  /\ no_tag (clean_subtitles r_text) = true
  /\ sub_tags (clean_subtitles r_text) = clean_subtitles r_text.
Proof.
  assert (T : no_tag (clean_subtitles r_text) = true).
  { unfold clean_subtitles, sub_spaces, sub_tags.
    apply no_tag_strip, no_tag_sub_spaces, no_tag_sub_tags. }
  unfold clean_subtitles in *. split; [apply strip_trimmed|]. split.
  - apply single_spaced_strip. unfold single_spaced, sub_spaces.
    apply single_spaced_sub_spaces. discriminate.
  - split; [exact T|]. apply no_tag_fixed. exact T.
Qed.

(** X6: collapsing the whitespace and stripping is joining the words with
    single spaces: [re.sub(r"\s+", " ", t).strip()] is [" ".join(t.split())].
    So the cleaned text has the words of the text without its tags, and
    cleaning a cleaned text changes nothing. *)
Theorem clean_subtitles_words text :
  strip (sub_spaces text) = join (str " ") (split text)
  /\ clean_subtitles text = join (str " ") (split (sub_tags text))
  /\ split (clean_subtitles text) = split (sub_tags text)
  /\ clean_subtitles (clean_subtitles text) = clean_subtitles text.
Proof.
  assert (W : forall t, split (strip (sub_spaces t)) = split t).
  { intros t. rewrite split_strip. unfold sub_spaces, split.
    rewrite (proj1 (split_sub_spaces t)). reflexivity. }
  assert (J : forall t, strip (sub_spaces t) = join (str " ") (split t)).
  { intros t. rewrite <- (W t). symmetry. apply normalised_join_split.
    - apply strip_trimmed.
    - apply single_spaced_strip. unfold single_spaced, sub_spaces.
      apply single_spaced_sub_spaces. discriminate. }
  split; [apply J|]. split; [apply J|]. split; [apply W|].
  assert (T : no_tag (clean_subtitles text) = true).
  { unfold clean_subtitles, sub_spaces, sub_tags.
    apply no_tag_strip, no_tag_sub_spaces, no_tag_sub_tags. }
  unfold clean_subtitles at 1. rewrite (no_tag_fixed _ T), J.
  unfold clean_subtitles. rewrite W. symmetry. apply J.
Qed.

(** ** [fetch_transcript_yt_dlp] *)

Section FetchFacts.

Variable extract_info : pystr -> option video_info.
Variable http_get : pystr -> option pystr.

Local Notation "'fetch'" := (fetch_transcript_yt_dlp extract_info http_get).

(** The dictionary the function reads the captions from. *)
Local Notation "'chosen' info" :=
  (or_captions (automatic_captions info) (or_captions (subtitles info) []))
  (at level 10, info at level 9).

Lemma dict_get_head {V} (k : pystr) (v : V) rest : dict_get k ((k, v) :: rest) = Some v.
Proof. cbn [dict_get]. destruct (list_eq_dec N.eq_dec k k); [reflexivity|congruence]. Qed.

(** X7: when the automatic captions have an English entry, the transcript
    is the cleaned body of the first format of that entry, or [None] when
    its download fails; the manual subtitles, the other languages and the
    other formats are not looked at. *)
Theorem fetch_transcript_english_auto video_url info ac entry others c u :
  extract_info video_url = Some info ->
  automatic_captions info = Some ac ->
  dict_get (str "en") ac = Some (entry :: others) ->
  format_url entry = Some (c :: u) ->
  fetch video_url = option_map clean_subtitles (http_get (c :: u)).
Proof.
  intros He Ha Hd Hu. unfold fetch_transcript_yt_dlp. rewrite He, Ha.
  destruct ac as [|[k v] ac]; [discriminate Hd|]. cbn [or_captions].
  unfold dict_has. rewrite Hd, Hd, Hu. destruct (http_get (c :: u)); reflexivity.
Qed.

(** X8: a transcript is returned only as the cleaned body of one download:
    that of the first format of the English entry of the chosen dictionary
    or, when it has no English entry, of its first entry; the dictionary is
    the automatic captions unless they are missing or empty, the subtitles
    otherwise.  In all other cases the result is [None]. *)
Theorem fetch_transcript_some video_url t :
  fetch video_url = Some t ->
  exists info key entry others u r_text,
    extract_info video_url = Some info
    /\ dict_get key (chosen info) = Some (entry :: others)
    /\ (key = str "en"
        \/ dict_get (str "en") (chosen info) = None
           /\ exists v rest, chosen info = (key, v) :: rest)
    /\ format_url entry = Some u /\ u <> []
    /\ http_get u = Some r_text
    /\ t = clean_subtitles r_text.
Proof.
  unfold fetch_transcript_yt_dlp. intros H.
  destruct (extract_info video_url) as [info|]; [|discriminate].
  exists info.
  destruct (chosen info) as [|[k v] rest] eqn:Es; [discriminate|].
  unfold dict_has in H.
  destruct (dict_get (str "en") ((k, v) :: rest)) as [l|] eqn:Een.
  - rewrite Een in H. destruct l as [|entry others]; [discriminate|].
    destruct (format_url entry) as [[|c u]|] eqn:Eu; try discriminate.
    destruct (http_get (c :: u)) as [r_text|] eqn:Eh; [|discriminate].
    injection H as <-. exists (str "en"), entry, others, (c :: u), r_text.
    repeat split; auto. discriminate.
  - rewrite dict_get_head in H. destruct v as [|entry others]; [discriminate|].
    destruct (format_url entry) as [[|c u]|] eqn:Eu; try discriminate.
    destruct (http_get (c :: u)) as [r_text|] eqn:Eh; [|discriminate].
    injection H as <-. exists k, entry, others, (c :: u), r_text.
    repeat split; auto.
    + apply dict_get_head.
    + right. split; [reflexivity|]. exists (entry :: others), rest. reflexivity.
    + discriminate.
Qed.

End FetchFacts.

(** ** More on the Segmenter *)

Section SegmenterMore.

Local Notation "'J'" := (join (str " ")).

(** *** The words are those of the text *)

Lemma split_aux_cons c x :
  split_aux (c :: x)
  = if isspace c then ([], split x) else (c :: fst (split_aux x), snd (split_aux x)).
Proof. cbn [split_aux]. unfold split. destruct (split_aux x). reflexivity. Qed.

Lemma re_split_aux_words text : forall m h t,
  re_split_aux m text = (h, t) ->
  match m with
  | Scan _ =>
      split_aux text = (fst (split_aux h), snd (split_aux h) ++ concat (map split t))
  | Skip => split text = split h ++ concat (map split t)
  end.
Proof.
  induction text as [|c text IH]; intros m h t H.
  - simpl in H. injection H as <- <-. destruct m; reflexivity.
  - assert (Hkeep : forall h' t',
        split_aux text = (fst (split_aux h'), snd (split_aux h') ++ concat (map split t')) ->
        split_aux (c :: text)
        = (fst (split_aux (c :: h')), snd (split_aux (c :: h')) ++ concat (map split t'))).
    { intros h' t' E. rewrite !split_aux_cons. unfold split. rewrite E.
      destruct (isspace c); cbn [fst snd]; [|reflexivity].
      destruct (split_aux h') as [w ws]. cbn [fst snd].
      rewrite cons_word_app. reflexivity. }
    assert (Hsp : is_space c = true -> split (c :: text) = split text).
    { intros Hc. apply N.eqb_eq in Hc. subst c. apply split_cons_space. reflexivity. }
    destruct m as [[|]|]; simpl in H.
    + destruct (is_space c) eqn:Hc.
      * destruct (re_split_aux Skip text) as [h' t'] eqn:E. injection H as <- <-.
        pose proof (IH _ _ _ E) as W. cbn beta iota in W.
        rewrite split_aux_cons.
        apply N.eqb_eq in Hc. subst c. change (isspace SPACE) with true. cbv iota.
        rewrite W. reflexivity.
      * destruct (re_split_aux (Scan (is_terminal c)) text) as [h' t'] eqn:E.
        injection H as <- <-. apply Hkeep. exact (IH _ _ _ E).
    + destruct (re_split_aux (Scan (is_terminal c)) text) as [h' t'] eqn:E.
      injection H as <- <-. apply Hkeep. exact (IH _ _ _ E).
    + destruct (is_space c) eqn:Hc.
      * rewrite (Hsp eq_refl). exact (IH _ _ _ H).
      * destruct (re_split_aux (Scan (is_terminal c)) text) as [h' t'] eqn:E.
        injection H as <- <-. pose proof (Hkeep _ _ (IH _ _ _ E)) as W.
        unfold split at 1 2. rewrite W.
        destruct (split_aux (c :: h')) as [w ws]. cbn [fst snd]. apply cons_word_app.
Qed.

Lemma total_words_concat_split t :
  Z.of_nat (length (concat (map split t))) = total_words t.
Proof.
  induction t as [|s t IH]; [reflexivity|].
  cbn [map concat]. rewrite length_app, Nat2Z.inj_add, IH. reflexivity.
Qed.

Lemma re_split_word_count text : total_words (re_split text) = word_count text.
Proof.
  unfold re_split. destruct (re_split_aux (Scan false) text) as [h t] eqn:E.
  pose proof (re_split_aux_words _ _ _ _ E) as W. cbn beta iota in W.
  unfold word_count, split at 1. rewrite W.
  change (total_words (h :: t)) with (word_count h + total_words t).
  rewrite <- total_words_concat_split. unfold word_count, split.
  destruct (split_aux h) as [w ws]. cbn [fst snd].
  rewrite cons_word_app, length_app. lia.
Qed.

Lemma total_words_joined G : total_words (map J G) = total_words (concat G).
Proof.
  induction G as [|g G IH]; [reflexivity|].
  cbn [map concat].
  change (total_words (J g :: map J G)) with (word_count (J g) + total_words (map J G)).
  rewrite word_count_join, IH, total_words_app. reflexivity.
Qed.

(** X9: chunking keeps the words: the word counts of the chunks add up to
    the word count of the text, for every [max_words]. *)
Theorem chunk_text_keeps_words text max_words :
  total_words (chunk_text text max_words) = word_count text.
Proof.
  rewrite chunk_text_groups, total_words_joined.
  destruct (chunk_groups_spec max_words text) as [Hc _].
  rewrite Hc. apply re_split_word_count.
Qed.

(** *** Texts that make one chunk *)

Lemma chunk_fold_fits max_words sents : forall cur n,
  n = total_words cur -> n + total_words sents <= max_words ->
  fold_left (chunk_step max_words) sents ([], cur, n)
  = ([], cur ++ sents, n + total_words sents).
Proof.
  induction sents as [|s sents IH]; intros cur n Hn Hle.
  - cbn [fold_left]. rewrite app_nil_r. unfold total_words; simpl.
    rewrite Z.add_0_r. reflexivity.
  - change (total_words (s :: sents)) with (word_count s + total_words sents) in *.
    pose proof (total_words_nonneg sents). pose proof (word_count_nonneg s).
    cbn [fold_left]. unfold chunk_step at 2.
    destruct (n + word_count s >? max_words) eqn:E.
    { rewrite Z.gtb_ltb in E. apply Z.ltb_lt in E. lia. }
    cbn [andb]. rewrite IH.
    + rewrite <- app_assoc, Z.add_assoc. reflexivity.
    + rewrite total_words_app, Hn. unfold total_words at 3; simpl. lia.
    + lia.
Qed.

Lemma no_terminal_one_piece s p :
  forallb (fun c => negb (is_terminal c)) s = true -> p = false ->
  re_split_aux (Scan p) s = (s, []).
Proof.
  revert p. induction s as [|c s IH]; simpl; intros p H ->; [reflexivity|].
  apply andb_true_iff in H. destruct H as [Hc Hs]. apply negb_true_iff in Hc.
  rewrite (IH _ Hs Hc). reflexivity.
Qed.

Lemma chunk_text_one_sentence text max_words :
  re_split text = [text] -> chunk_text text max_words = [text].
Proof.
  intros H. unfold chunk_text. rewrite H. cbn [fold_left]. unfold chunk_step.
  cbn [is_empty negb]. rewrite andb_false_r. reflexivity.
Qed.

(** X10: a text of at most [max_words] words makes exactly one chunk, its
    sentences joined by single spaces. *)
Theorem chunk_text_short text max_words :
  word_count text <= max_words ->
  chunk_text text max_words = [join (str " ") (re_split text)].
Proof.
  intros H. unfold chunk_text.
  rewrite (chunk_fold_fits max_words (re_split text) [] 0).
  - cbn [app]. destruct (re_split text) eqn:E; [|reflexivity].
    exfalso. exact (re_split_nonempty text E).
  - reflexivity.
  - rewrite re_split_word_count. lia.
Qed.

Lemma chunk_text_short_witness :
  word_count (str "One two. Three!") <= 150
  /\ chunk_text (str "One two. Three!") 150 = [str "One two. Three!"].
Proof.
  split; [vm_compute; discriminate|].
  apply (chunk_text_short (str "One two. Three!") 150). vm_compute. discriminate.
Defined.

(** X11: a text without [.], [!] and [?] is one sentence and makes exactly
    one chunk, the text itself, however many words it has and whatever
    [max_words] is: the bound is only applied between sentences. *)
Theorem chunk_text_no_punctuation text max_words :
  forallb (fun c => negb (is_terminal c)) text = true ->
  chunk_text text max_words = [text].
Proof.
  intros H. apply chunk_text_one_sentence. unfold re_split.
  rewrite (no_terminal_one_piece text false H eq_refl). reflexivity.
Qed.

Lemma chunk_text_no_punctuation_witness :
  forallb (fun c => negb (is_terminal c)) (str "so today we are going to look at") = true
  /\ chunk_text (str "so today we are going to look at") 3
     = [str "so today we are going to look at"].
Proof.
  split; [reflexivity|].
  apply (chunk_text_no_punctuation (str "so today we are going to look at") 3).
  reflexivity.
Defined.

(** *** Chunks are filled greedily *)

Lemma greedy_snoc max_words G : forall g,
  greedy max_words (G ++ [g])
  <-> greedy max_words G
      /\ (G <> [] -> max_words < total_words (last G []) + word_count (hd [] g)).
Proof.
  induction G as [|g1 G IH]; intros g.
  - cbn. intuition congruence.
  - destruct G as [|g2 G].
    + cbn. intuition congruence.
    + change ((g1 :: g2 :: G) ++ [g]) with (g1 :: (g2 :: G) ++ [g]).
      change (greedy max_words (g1 :: (g2 :: G) ++ [g]))
        with (max_words < total_words g1 + word_count (hd [] g2)
              /\ greedy max_words ((g2 :: G) ++ [g])).
      change (greedy max_words (g1 :: g2 :: G))
        with (max_words < total_words g1 + word_count (hd [] g2)
              /\ greedy max_words (g2 :: G)).
      change (last (g1 :: g2 :: G) []) with (last (g2 :: G) []).
      rewrite (IH g). intuition congruence.
Qed.

Lemma group_fold_greedy max_words sents : forall G cur n,
  n = total_words cur -> greedy max_words G ->
  (G <> [] -> cur <> []
              /\ max_words < total_words (last G []) + word_count (hd [] cur)) ->
  let '(G', cur', n') := fold_left (group_step max_words) sents (G, cur, n) in
  greedy max_words G'
  /\ (G' <> [] -> cur' <> []
                  /\ max_words < total_words (last G' []) + word_count (hd [] cur')).
Proof.
  induction sents as [|s sents IH]; intros G cur n Hn Hg Hl; [cbn; auto|].
  cbn [fold_left]. unfold group_step at 2.
  destruct (n + word_count s >? max_words) eqn:E; destruct cur as [|c cur];
    cbn [is_empty negb andb].
  - apply IH.
    + rewrite Hn. unfold total_words; simpl. lia.
    + exact Hg.
    + intros HG. destruct (Hl HG) as [Hc _]. congruence.
  - rewrite Z.gtb_ltb in E. apply Z.ltb_lt in E. apply IH.
    + unfold total_words; simpl. lia.
    + apply greedy_snoc. split; [exact Hg|]. intros HG. apply (Hl HG).
    + intros _. split; [discriminate|]. rewrite last_last. cbn [hd]. lia.
  - apply IH.
    + rewrite Hn. unfold total_words; simpl. lia.
    + exact Hg.
    + intros HG. destruct (Hl HG) as [Hc _]. congruence.
  - apply IH.
    + rewrite total_words_app, Hn. unfold total_words at 3; simpl. lia.
    + exact Hg.
    + intros HG. destruct (Hl HG) as [_ Hlink]. split; [discriminate|exact Hlink].
Qed.

Lemma chunk_groups_greedy text max_words : greedy max_words (chunk_groups text max_words).
Proof.
  unfold chunk_groups.
  pose proof (group_fold_greedy max_words (re_split text) [] [] 0 eq_refl I) as H.
  destruct (fold_left (group_step max_words) (re_split text) ([], [], 0)) as [[G cur] n].
  destruct H as [Hg Hl]; [congruence|].
  destruct cur as [|c cur]; cbn [is_empty negb]; [exact Hg|].
  apply greedy_snoc. split; [exact Hg|]. intros HG. apply (Hl HG).
Qed.

Lemma greedy_nth max_words G : forall i,
  greedy max_words G -> (S i < length G)%nat ->
  max_words < total_words (nth i G []) + word_count (hd [] (nth (S i) G [])).
Proof.
  induction G as [|g1 G IH]; intros i Hg Hi; [simpl in Hi; lia|].
  destruct G as [|g2 G]; [simpl in Hi; lia|].
  destruct Hg as [H1 H2]. destruct i as [|i]; [exact H1|].
  apply (IH i H2). simpl in Hi |- *. lia.
Qed.

Lemma re_split_joined_group g : g <> [] -> chain g -> re_split (J g) = g.
Proof.
  intros Hne Hc. unfold re_split. rewrite (re_split_join g Hne Hc).
  destruct g; [congruence|reflexivity].
Qed.

(** X12: chunks are filled greedily: every chunk but the last is followed by
    a chunk whose first sentence would have taken it over [max_words]. *)
Theorem chunk_text_greedy text max_words i :
  (S i < length (chunk_text text max_words))%nat ->
  max_words
  < word_count (nth i (chunk_text text max_words) [])
    + word_count (hd [] (re_split (nth (S i) (chunk_text text max_words) []))).
Proof.
  rewrite chunk_text_groups, length_map. intros Hi.
  destruct (chunk_groups_spec max_words text) as (Hc & Hne & _).
  set (G := chunk_groups text max_words) in *.
  assert (Hch : Forall chain G).
  { apply chain_concat. rewrite Hc. apply re_split_chain. }
  change (@nil char) with (J []) at 1 3.
  rewrite !map_nth, word_count_join.
  rewrite re_split_joined_group.
  - apply greedy_nth; [apply chunk_groups_greedy|exact Hi].
  - rewrite Forall_forall in Hne. apply Hne. apply nth_In. lia.
  - rewrite Forall_forall in Hch. apply Hch. apply nth_In. lia.
Qed.

Lemma chunk_text_greedy_witness :
  (1 < length (chunk_text (str "A b. C d. E.") 3))%nat
  /\ 3 < word_count (nth 0 (chunk_text (str "A b. C d. E.") 3) [])
         + word_count (hd [] (re_split (nth 1 (chunk_text (str "A b. C d. E.") 3) []))).
Proof.
  split; [vm_compute; lia|].
  apply (chunk_text_greedy (str "A b. C d. E.") 3 0). vm_compute. lia.
Defined.

(** *** Chunks of a text that ends with a word *)

Lemma split_nil_whitespace s : split s = [] -> forallb isspace s = true.
Proof.
  induction s as [|c s IH]; [reflexivity|].
  unfold split. rewrite split_aux_cons. destruct (isspace c) eqn:Ec.
  - cbn [cons_word is_empty forallb]. rewrite Ec. exact IH.
  - cbn [cons_word is_empty]. discriminate.
Qed.

Lemma word_count_pos s c :
  In c s -> isspace c = false -> 1 <= word_count s.
Proof.
  intros Hin Hc. unfold word_count. destruct (split s) eqn:E; [|simpl; lia].
  exfalso. apply split_nil_whitespace in E. rewrite forallb_forall in E.
  rewrite (E c Hin) in Hc. discriminate.
Qed.

Lemma end_state_terminal s : forall p,
  end_state p s = true -> (s = [] /\ p = true) \/ exists c, In c s /\ is_terminal c = true.
Proof.
  induction s as [|c s IH]; intros p H; [left; auto|].
  change (end_state p (c :: s)) with (end_state (is_terminal c) s) in H.
  right. destruct (IH _ H) as [[-> Hc]|(c' & Hin & Hc')].
  - exists c. split; [left; reflexivity|exact Hc].
  - exists c'. split; [right; exact Hin|exact Hc'].
Qed.

Lemma closed_sentence_has_word s : end_state false s = true -> 1 <= word_count s.
Proof.
  intros H. destruct (end_state_terminal s false H) as [[_ F]|(c & Hin & Hc)];
    [discriminate|].
  apply (word_count_pos s c Hin).
  destruct (isspace c) eqn:E; [|reflexivity].
  rewrite (isspace_not_terminal c E) in Hc. discriminate.
Qed.

Lemma no_trailing_space_has_word s :
  s <> [] -> no_trailing_space s = true -> 1 <= word_count s.
Proof.
  intros Hne H. destruct s as [|c s] using rev_ind; [congruence|].
  rewrite no_trailing_space_snoc in H. apply negb_true_iff in H.
  apply (word_count_pos _ c); [apply in_or_app; right; left; reflexivity|exact H].
Qed.

Lemma last_default {A} (l : list A) d d' : l <> [] -> last l d = last l d'.
Proof.
  induction l as [|a l IH]; [congruence|]. intros _.
  destruct l as [|b l]; [reflexivity|]. cbn [last] in *. apply IH. discriminate.
Qed.

Lemma last_cons_default {A} (a : A) l d : last (a :: l) d = last l a.
Proof.
  destruct l as [|b l]; [reflexivity|].
  change (last (a :: b :: l) d) with (last (b :: l) d). apply last_default. discriminate.
Qed.

Lemma no_trailing_space_cons c h :
  h <> [] -> no_trailing_space h = true -> no_trailing_space (c :: h) = true.
Proof. destruct h; [congruence|auto]. Qed.

(** The last piece of a text that does not end with whitespace is not
    empty and does not end with whitespace either. *)
Lemma re_split_aux_last text : forall m h t,
  re_split_aux m text = (h, t) ->
  text <> [] -> no_trailing_space text = true ->
  last t h <> [] /\ no_trailing_space (last t h) = true.
Proof.
  induction text as [|c text IH]; intros m h t H Hne T; [congruence|].
  assert (Hsp : is_space c = true -> text <> [] /\ no_trailing_space text = true).
  { intros Hc. apply N.eqb_eq in Hc. subst c. destruct text as [|c' text].
    - discriminate T.
    - split; [discriminate|exact T]. }
  assert (Hkeep : forall m' h', re_split_aux m' text = (h', t) ->
            last t (c :: h') <> [] /\ no_trailing_space (last t (c :: h')) = true).
  { intros m' h' E. destruct text as [|c' text].
    - simpl in E. injection E as <- <-. cbn [last]. split; [discriminate|exact T].
    - assert (Hne' : c' :: text <> []) by discriminate.
      destruct (IH _ _ _ E Hne' T) as [L1 L2].
      destruct t as [|s t].
      + cbn [last] in *. split; [discriminate|].
        apply no_trailing_space_cons; assumption.
      + rewrite (last_default (s :: t) (c :: h') h') by discriminate. auto. }
  destruct m as [[|]|]; simpl in H.
  - destruct (is_space c) eqn:Hc.
    + destruct (re_split_aux Skip text) as [h' t'] eqn:E. injection H as <- <-.
      destruct (Hsp eq_refl) as [N1 N2].
      rewrite last_cons_default. exact (IH _ _ _ E N1 N2).
    + destruct (re_split_aux (Scan (is_terminal c)) text) as [h' t'] eqn:E.
      injection H as <- <-. exact (Hkeep _ _ E).
  - destruct (re_split_aux (Scan (is_terminal c)) text) as [h' t'] eqn:E.
    injection H as <- <-. exact (Hkeep _ _ E).
  - destruct (is_space c) eqn:Hc.
    + destruct (Hsp eq_refl) as [N1 N2]. exact (IH _ _ _ H N1 N2).
    + destruct (re_split_aux (Scan (is_terminal c)) text) as [h' t'] eqn:E.
      injection H as <- <-. exact (Hkeep _ _ E).
Qed.

Lemma chain_words l :
  chain l -> (l <> [] -> 1 <= word_count (last l [])) ->
  Forall (fun s => 1 <= word_count s) l.
Proof.
  induction l as [|s l IH]; intros Hc Hl; [constructor|].
  destruct Hc as (_ & L & C). destruct l as [|s' l].
  - constructor; [|constructor]. apply Hl. discriminate.
  - destruct L as [E _]; [discriminate|]. constructor.
    + apply closed_sentence_has_word. exact E.
    + apply IH; [exact C|]. intros _.
      specialize (Hl ltac:(discriminate)). exact Hl.
Qed.

Lemma sentences_have_words text :
  text <> [] -> no_trailing_space text = true ->
  Forall (fun s => 1 <= word_count s) (re_split text).
Proof.
  intros Hne T. apply chain_words; [apply re_split_chain|]. intros _.
  unfold re_split. destruct (re_split_aux (Scan false) text) as [h t] eqn:E.
  destruct (re_split_aux_last _ _ _ _ E Hne T) as [L1 L2].
  rewrite last_cons_default. apply no_trailing_space_has_word; assumption.
Qed.

Lemma group_has_word g :
  g <> [] -> Forall (fun s => 1 <= word_count s) g -> 1 <= total_words g.
Proof.
  intros Hne H. destruct g as [|s g]; [congruence|].
  inversion H as [|? ? Hs _]; subst.
  change (total_words (s :: g)) with (word_count s + total_words g).
  pose proof (total_words_nonneg g). lia.
Qed.

Lemma Forall_concat_groups {A} (P : A -> Prop) (G : list (list A)) :
  Forall P (concat G) -> Forall (Forall P) G.
Proof.
  induction G as [|g G IH]; intros H; constructor;
    cbn [concat] in H; apply Forall_app in H; destruct H; auto.
Qed.

Lemma chunks_have_words text max_words :
  text <> [] -> no_trailing_space text = true ->
  Forall (fun chunk => 1 <= word_count chunk) (chunk_text text max_words).
Proof.
  intros Hne T. rewrite chunk_text_groups.
  destruct (chunk_groups_spec max_words text) as (Hc & Hn & _).
  pose proof (sentences_have_words text Hne T) as Hs. rewrite <- Hc in Hs.
  apply Forall_concat_groups in Hs.
  apply Forall_map. rewrite Forall_forall in *. intros g Hg.
  rewrite word_count_join. apply group_has_word; [apply Hn|apply Hs]; exact Hg.
Qed.

(** X13: when the text is not empty and does not end with whitespace, every
    sentence and every chunk holds at least one word: no empty or blank
    chunk is made. *)
Theorem chunk_text_chunks_have_words text max_words :
  text <> [] -> no_trailing_space text = true ->
  Forall (fun s => 1 <= word_count s) (re_split text)
  /\ Forall (fun chunk => 1 <= word_count chunk) (chunk_text text max_words).
Proof.
  intros Hne T. split; [apply sentences_have_words|apply chunks_have_words]; assumption.
Qed.

Lemma chunk_text_chunks_have_words_witness :
  str " A. B.  C" <> [] /\ no_trailing_space (str " A. B.  C") = true
  /\ Forall (fun chunk => 1 <= word_count chunk) (chunk_text (str " A. B.  C") 1).
Proof.
  assert (Hne : str " A. B.  C" <> []) by discriminate.
  split; [exact Hne|]. split; [reflexivity|].
  apply (chunk_text_chunks_have_words (str " A. B.  C") 1 Hne). reflexivity.
Defined.

End SegmenterMore.

(** ** More on the summariser *)

Section SummarizerMore.

Context {agent_state object failure : Type}.
Variable py_str : object -> pystr.
Variable agent_run : agent_state -> pystr -> agent_state * @outcome object failure.

Local Notation "'leaf'" := (summarize_chunks py_str agent_run).
Local Notation "'batches'" := (merge_batches py_str agent_run).
Local Notation "'pass'" := (merge_pass py_str agent_run).
Local Notation "'loop'" := (merge_loop py_str agent_run).
Local Notation "'reducer'" := (reduce py_str agent_run).
Local Notation "'summarize'" := (summarize_with py_str agent_run).

(** *** Lengths, whatever the agent does *)

Lemma summarize_chunks_ok_length chunks : forall acc st st' tr l,
  leaf chunks acc st = (st', tr, Ok l) ->
  length l = (length acc + length chunks)%nat
  /\ prompts tr = map leaf_prompt chunks.
Proof.
  induction chunks as [|c chunks IH]; intros acc st st' tr l H.
  - injection H as <- <- <-. split; [simpl; lia|reflexivity].
  - rewrite summarize_chunks_cons in H.
    destruct (agent_run st (leaf_prompt c)) as [st1 [v|e]]; [|discriminate].
    destruct (leaf chunks (acc ++ [capture py_str v]) st1) as [[st2 tr2] r] eqn:E.
    injection H as <- <- ->. destruct (IH _ _ _ _ _ E) as [L P].
    rewrite length_app in L. cbn [prompts flat_map app] in *.
    fold (prompts tr2). rewrite P. split; [simpl in *; lia|reflexivity].
Qed.

Lemma merge_batches_ok_length b summaries indices : forall acc st st' tr l,
  batches indices b summaries acc st = (st', tr, Ok l) ->
  length l = (length acc + length indices)%nat
  /\ prompts tr = map (fun i => batch_prompt (py_slice summaries i (i + b))) indices.
Proof.
  induction indices as [|i indices IH]; intros acc st st' tr l H.
  - injection H as <- <- <-. split; [simpl; lia|reflexivity].
  - rewrite merge_batches_cons in H. cbv zeta in H.
    destruct (agent_run st _) as [st1 [v|e]]; [|discriminate].
    destruct (batches indices b summaries (acc ++ [capture py_str v]) st1)
      as [[st2 tr2] r] eqn:E.
    injection H as <- <- ->. destruct (IH _ _ _ _ _ E) as [L P].
    rewrite length_app in L. cbn [prompts flat_map app] in *.
    fold (prompts tr2). rewrite P. split; [simpl in *; lia|reflexivity].
Qed.

Lemma merge_pass_ok_length b summaries st st' tr merged :
  pass b summaries st = (st', tr, Ok merged) ->
  length merged = next_size b (length summaries)
  /\ prompts tr = map batch_prompt (merge_groups b summaries).
Proof.
  unfold merge_pass, merge_groups, next_size, py_range.
  destruct (b =? 0); [discriminate|]. intros H.
  destruct (merge_batches_ok_length _ _ _ _ _ _ _ _ H) as [L P].
  rewrite L, P, length_map, length_seq, !map_map. split; reflexivity.
Qed.

(** With [batch_size = 1] the loop can only end where it starts. *)
Lemma merge_loop_batch1_ok fuel : forall l st st' tr l',
  loop fuel 1 l st = (st', tr, Ok l') ->
  (length l <= 1)%nat /\ l' = l /\ tr = [] /\ st' = st.
Proof.
  induction fuel as [|fuel IH]; intros l st st' tr l' H.
  - cbn [merge_loop] in H. destruct (1 <? length l)%nat eqn:E; [discriminate|].
    apply Nat.ltb_ge in E. injection H as <- <- <-. auto.
  - destruct (Nat.le_gt_cases (length l) 1) as [Hle|Hgt].
    + rewrite merge_loop_done in H by exact Hle. injection H as <- <- <-. auto.
    + exfalso. rewrite merge_loop_step in H by exact Hgt.
      destruct (pass 1 l st) as [[st1 tr1] [merged|e|]] eqn:P; try discriminate.
      destruct (loop fuel 1 merged st1) as [[st2 tr2] r2] eqn:E.
      injection H as _ _ ->. destruct (IH _ _ _ _ _ E) as [Hm _].
      destruct (merge_pass_ok_length _ _ _ _ _ _ P) as [L _].
      rewrite next_size_one in L. lia.
Qed.

Lemma summarize_batch1_ok fuel chunks st st' tr s :
  summarize_using_agent py_str agent_run fuel chunks st = (st', tr, Ok s) ->
  (chunks = [] /\ s = [] /\ tr = [] /\ st' = st)
  \/ exists chunk v,
       chunks = [chunk]
       /\ agent_run st (leaf_prompt chunk) = (st', Returns v)
       /\ s = capture py_str v
       /\ tr = [Run (leaf_prompt chunk) (Returns v); Sleep].
Proof.
  unfold summarize_using_agent, batch_size, summarize_with, reduce, bind, ret.
  intros H.
  destruct (leaf chunks [] st) as [[st1 tr1] [l| |]] eqn:El; try discriminate.
  destruct (loop fuel 1 l st1) as [[st2 tr2] [l'| |]] eqn:Ep; try discriminate.
  injection H as <- <- <-.
  destruct (merge_loop_batch1_ok _ _ _ _ _ _ Ep) as (Hl & -> & -> & ->).
  destruct (summarize_chunks_ok_length _ _ _ _ _ _ El) as [L _].
  cbn [length Nat.add] in L. rewrite L in Hl.
  destruct chunks as [|c [|c' chunks]]; [| |simpl in Hl; lia].
  - left. injection El as <- <- <-. repeat split; reflexivity.
  - right. rewrite summarize_chunks_cons in El.
    destruct (agent_run st (leaf_prompt c)) as [st2 [v|e]] eqn:Ea; [|discriminate].
    cbn [summarize_chunks ret app] in El. injection El as <- <- <-.
    exists c, v. repeat split; try reflexivity. exact Ea.
Qed.

Lemma summarize_one_chunk b fuel chunk st st1 v :
  agent_run st (leaf_prompt chunk) = (st1, Returns v) ->
  summarize b fuel [chunk] st
  = (st1, [Run (leaf_prompt chunk) (Returns v); Sleep], Ok (capture py_str v)).
Proof.
  intros Ha. unfold summarize_with, bind. rewrite summarize_chunks_cons, Ha.
  cbn [summarize_chunks ret app]. unfold reduce, bind, ret.
  rewrite merge_loop_done by (simpl; lia). reflexivity.
Qed.

(** X14: [summarize_using_agent] returns a summary in exactly two cases:
    for no chunk, the empty text without any call; for one chunk whose call
    returns, the captured output of that one call, followed by one sleep.
    For two or more chunks it never returns a summary, whatever the agent
    does and however long it runs. *)
Theorem summarize_using_agent_returns fuel chunks st st' tr s :
  summarize_using_agent py_str agent_run fuel chunks st = (st', tr, Ok s)
  <-> (chunks = [] /\ s = [] /\ tr = [] /\ st' = st)
      \/ exists chunk v,
           chunks = [chunk]
           /\ agent_run st (leaf_prompt chunk) = (st', Returns v)
           /\ s = capture py_str v
           /\ tr = [Run (leaf_prompt chunk) (Returns v); Sleep].
Proof.
  split; [apply summarize_batch1_ok|].
  intros [(-> & -> & -> & ->)|(chunk & v & -> & Ha & -> & ->)].
  - unfold summarize_using_agent, summarize_with, reduce, bind, ret.
    cbn [summarize_chunks ret]. rewrite merge_loop_done by (simpl; lia). reflexivity.
  - apply summarize_one_chunk. exact Ha.
Qed.

(** *** Pacing *)

Lemma steady_paced (tr : list (@event object failure)) : steady tr -> paced tr.
Proof. induction 1; constructor; assumption. Qed.

Lemma steady_app (a b : list (@event object failure)) :
  steady a -> steady b -> steady (a ++ b).
Proof. induction 1; intros Hb; [exact Hb|]. cbn [app]. constructor. auto. Qed.

Lemma steady_app_paced (a b : list (@event object failure)) :
  steady a -> paced b -> paced (a ++ b).
Proof. induction 1; intros Hb; [exact Hb|]. cbn [app]. constructor. auto. Qed.

Lemma well_paced_call {A} p (v : @value object) (st : agent_state)
    (tr : list (@event object failure)) (r : @res failure A) :
  well_paced (st, tr, r) -> well_paced (st, Run p (Returns v) :: Sleep :: tr, r).
Proof. intros [H1 H2]. split; [constructor; exact H1|intros H; constructor; auto]. Qed.

Lemma well_paced_raise {A} (st : agent_state) p (e : failure) :
  well_paced (object := object) (A := A) (st, [Run p (Raises e)], Exc (AgentError e)).
Proof. split; [constructor|]. intros H. exfalso. exact (H e eq_refl). Qed.

Lemma summarize_chunks_paced chunks : forall acc st, well_paced (leaf chunks acc st).
Proof.
  induction chunks as [|c chunks IH]; intros acc st.
  - split; [constructor|intros _; constructor].
  - rewrite summarize_chunks_cons.
    destruct (agent_run st (leaf_prompt c)) as [st1 [v|e]]; [|apply well_paced_raise].
    specialize (IH (acc ++ [capture py_str v]) st1).
    destruct (leaf chunks (acc ++ [capture py_str v]) st1) as [[st2 tr] r].
    apply well_paced_call. exact IH.
Qed.

Lemma merge_batches_paced b summaries indices : forall acc st,
  well_paced (batches indices b summaries acc st).
Proof.
  induction indices as [|i indices IH]; intros acc st.
  - split; [constructor|intros _; constructor].
  - rewrite merge_batches_cons. cbv zeta.
    destruct (agent_run st _) as [st1 [v|e]]; [|apply well_paced_raise].
    specialize (IH (acc ++ [capture py_str v]) st1).
    destruct (batches indices b summaries (acc ++ [capture py_str v]) st1)
      as [[st2 tr] r].
    apply well_paced_call. exact IH.
Qed.

Lemma merge_pass_paced b summaries st : well_paced (pass b summaries st).
Proof.
  unfold merge_pass. destruct (py_range _ _ _).
  - apply merge_batches_paced.
  - split; [constructor|intros _; constructor].
Qed.

Lemma bind_paced {A B} (m : M agent_state object failure A)
    (f : A -> M agent_state object failure B) st :
  well_paced (m st) -> (forall a st1, well_paced (f a st1)) -> well_paced (bind m f st).
Proof.
  intros Hm Hf. unfold bind. destruct (m st) as [[st1 tr1] [a|e|]].
  - specialize (Hf a st1). destruct (f a st1) as [[st2 tr2] r2].
    destruct Hm as [_ Hs]. destruct Hf as [Hp Hs2].
    assert (S1 : steady tr1) by (apply Hs; discriminate).
    split; [apply steady_app_paced; assumption|].
    intros H. apply steady_app; auto.
  - destruct Hm as [Hp Hs]. split; [exact Hp|]. intros H. apply Hs.
    intros e' E. apply (H e'). injection E as ->. reflexivity.
  - destruct Hm as [Hp Hs]. split; [exact Hp|]. intros _. apply Hs. discriminate.
Qed.

Lemma merge_loop_paced b fuel : forall summaries st,
  well_paced (loop fuel b summaries st).
Proof.
  induction fuel as [|fuel IH]; intros summaries st; cbn [merge_loop];
    destruct (1 <? length summaries)%nat;
    try (split; [constructor|intros _; constructor]).
  apply bind_paced; [apply merge_pass_paced|intros; apply IH].
Qed.

Lemma summarize_with_well_paced b fuel chunks st :
  well_paced (summarize b fuel chunks st).
Proof.
  unfold summarize_with, reduce.
  apply bind_paced; [apply summarize_chunks_paced|]. intros l st1.
  apply bind_paced; [apply merge_loop_paced|]. intros l' st2.
  split; [constructor|intros _; constructor].
Qed.

Lemma steady_counts (tr : list (@event object failure)) :
  steady tr -> length tr = (2 * length (returned tr))%nat
               /\ length (prompts tr) = length (returned tr).
Proof.
  induction 1 as [|p v tr _ [IH1 IH2]]; [split; reflexivity|].
  cbn [prompts returned flat_map app length] in *.
  fold (prompts tr) (returned tr). split; lia.
Qed.

(** X15: in every run, for every group size and every agent, each model
    call that returns is followed by exactly one sleep, a call that raises
    is the last event, and there is no other sleep; a run that does not end
    with a failure of the agent has made as many sleeps as calls. *)
Theorem summarize_with_paced b fuel chunks st :
  let '(_, tr, r) := summarize b fuel chunks st in
  paced tr
  /\ ((steady tr /\ length tr = (2 * length (prompts tr))%nat)
      \/ exists e, r = Exc (AgentError e)).
Proof.
  pose proof (summarize_with_well_paced b fuel chunks st) as H.
  destruct (summarize b fuel chunks st) as [[st' tr] r].
  destruct H as [Hp Hs]. split; [exact Hp|].
  assert (Hst : (forall e, r <> Exc (AgentError e)) ->
                steady tr /\ length tr = (2 * length (prompts tr))%nat).
  { intros Hr. pose proof (Hs Hr) as S. split; [exact S|].
    destruct (steady_counts tr S) as [C1 C2]. lia. }
  destruct r as [a|[e|]|]; try (left; apply Hst; discriminate).
  right. exists e. reflexivity.
Qed.

(** *** The order of the calls *)

Lemma summarize_chunks_prompts chunks : forall acc st,
  let '(_, tr, _) := leaf chunks acc st in
  prompts tr = firstn (length (prompts tr)) (map leaf_prompt chunks).
Proof.
  induction chunks as [|c chunks IH]; intros acc st; [reflexivity|].
  rewrite summarize_chunks_cons.
  destruct (agent_run st (leaf_prompt c)) as [st1 [v|e]]; [|reflexivity].
  specialize (IH (acc ++ [capture py_str v]) st1).
  destruct (leaf chunks (acc ++ [capture py_str v]) st1) as [[st2 tr] r].
  cbn [prompts flat_map app length map firstn]. fold (prompts tr).
  rewrite <- IH. reflexivity.
Qed.

Lemma merge_batches_prompts b summaries indices : forall acc st,
  let '(_, tr, _) := batches indices b summaries acc st in
  Forall is_batch_prompt (prompts tr).
Proof.
  induction indices as [|i indices IH]; intros acc st; [constructor|].
  rewrite merge_batches_cons. cbv zeta.
  destruct (agent_run st _) as [st1 [v|e]].
  - specialize (IH (acc ++ [capture py_str v]) st1).
    destruct (batches indices b summaries (acc ++ [capture py_str v]) st1)
      as [[st2 tr] r].
    cbn [prompts flat_map app]. fold (prompts tr).
    constructor; [eexists; reflexivity|exact IH].
  - cbn. constructor; [eexists; reflexivity|constructor].
Qed.

Lemma merge_loop_prompts b fuel : forall summaries st,
  let '(_, tr, _) := loop fuel b summaries st in Forall is_batch_prompt (prompts tr).
Proof.
  induction fuel as [|fuel IH]; intros summaries st; cbn [merge_loop];
    destruct (1 <? length summaries)%nat; try constructor.
  unfold bind, merge_pass. destruct (py_range _ _ _) as [indices|]; [|constructor].
  pose proof (merge_batches_prompts b summaries indices [] st) as Hb.
  destruct (batches indices b summaries [] st) as [[st1 tr1] [merged|e|]]; try exact Hb.
  specialize (IH merged st1). destruct (loop fuel b merged st1) as [[st2 tr2] r2].
  rewrite prompts_app. apply Forall_app. split; assumption.
Qed.

(** X16: in every run the calls on the chunks come first, one per chunk in
    the order of the chunks, as far as the run gets; every call after them
    is a merge call. *)
Theorem summarize_with_call_order b fuel chunks st :
  let '(_, tr, _) := summarize b fuel chunks st in
  firstn (length chunks) (prompts tr)
  = firstn (length (prompts tr)) (map leaf_prompt chunks)
  /\ Forall (fun p => exists batch, p = batch_prompt batch)
            (skipn (length chunks) (prompts tr)).
Proof.
  unfold summarize_with, reduce, bind, ret.
  pose proof (summarize_chunks_prompts chunks [] st) as Hp.
  assert (Hshort : forall tr : list (@event object failure),
            prompts tr = firstn (length (prompts tr)) (map leaf_prompt chunks) ->
            firstn (length chunks) (prompts tr)
            = firstn (length (prompts tr)) (map leaf_prompt chunks)
            /\ Forall is_batch_prompt (skipn (length chunks) (prompts tr))).
  { intros tr E.
    assert (L : (length (prompts tr) <= length chunks)%nat).
    { rewrite E, length_firstn, length_map. lia. }
    rewrite firstn_all2 by exact L. rewrite skipn_all2 by exact L.
    split; [exact E|constructor]. }
  destruct (leaf chunks [] st) as [[st1 tr1] [l|e|]] eqn:El;
    try (apply Hshort; exact Hp).
  destruct (summarize_chunks_ok_length _ _ _ _ _ _ El) as [_ P].
  pose proof (merge_loop_prompts b fuel l st1) as Hl.
  destruct (loop fuel b l st1) as [[st2 tr2] [l'|e|]];
    rewrite ?app_nil_r, prompts_app, P;
    (split;
     [rewrite firstn_app, length_map, Nat.sub_diag, firstn_O, app_nil_r;
      rewrite !firstn_all2 by (rewrite ?length_app, length_map; lia); reflexivity
     |rewrite skipn_app, length_map, Nat.sub_diag, skipn_O;
      rewrite skipn_all2 by (rewrite length_map; lia); exact Hl]).
Qed.

(** *** The merge passes of the code *)

Lemma unit_groups (G : list (list pystr)) :
  Forall (fun g => length g = 1%nat) G -> G = map (fun s => [s]) (concat G).
Proof.
  induction 1 as [|g G Hg _ IH]; [reflexivity|].
  destruct g as [|s [|s' g]]; try discriminate Hg.
  cbn [concat app map]. rewrite <- IH. reflexivity.
Qed.

(** X18: with the code's [batch_size = 1] a merge pass puts every summary
    in a group of its own: each merge call is made on one summary alone,
    and a pass that completes gives as many summaries as it was given. *)
Theorem merge_pass_batch1 summaries st :
  merge_groups batch_size summaries = map (fun s => [s]) summaries
  /\ forall st' tr merged,
       pass batch_size summaries st = (st', tr, Ok merged) ->
       prompts tr = map (fun s => batch_prompt [s]) summaries
       /\ length merged = length summaries.
Proof.
  unfold batch_size.
  assert (G : merge_groups 1 summaries = map (fun s => [s]) summaries).
  { destruct (merge_groups_sizes 1 ltac:(lia) summaries) as [Hs _].
    rewrite <- (merge_groups_concat 1 ltac:(lia) summaries) at 2.
    apply unit_groups. rewrite Forall_forall in *. intros g Hg.
    destruct (Hs g Hg). lia. }
  split; [exact G|]. intros st' tr merged H.
  destruct (merge_pass_ok_length _ _ _ _ _ _ H) as [L P].
  rewrite P, G, map_map, L, next_size_one. split; reflexivity.
Qed.

Section Reliable.

Hypothesis agent_reliable : reliable agent_run.

(** X19: with an agent that returns on every call, the run of
    [summarize_using_agent] on [n] chunks makes [n] calls and ends when
    [n <= 1]; when [n >= 2] it has made [n * (k + 1)] calls once it has been
    followed for [k] merge passes, [n] calls for the chunks and [n] more in
    every pass, and it is then still in the loop. *)
Theorem summarize_using_agent_calls fuel chunks st :
  let '(_, tr, r) := summarize_using_agent py_str agent_run fuel chunks st in
  length (prompts tr)
  = (if (length chunks <=? 1)%nat then length chunks else length chunks * S fuel)%nat
  /\ (r = Running <-> (2 <= length chunks)%nat).
Proof.
  destruct chunks as [|c [|c' chunks]].
  - unfold summarize_using_agent, summarize_with, reduce, bind, ret.
    cbn [summarize_chunks ret]. rewrite merge_loop_done by (simpl; lia).
    split; [reflexivity|]. split; [discriminate|simpl; lia].
  - destruct (agent_reliable st (leaf_prompt c)) as [v Hv].
    destruct (agent_run st (leaf_prompt c)) as [st1 o] eqn:Ea.
    cbn [snd] in Hv. subst o. unfold summarize_using_agent.
    rewrite (summarize_one_chunk batch_size fuel c st st1 v Ea).
    split; [reflexivity|]. split; [discriminate|simpl; lia].
  - destruct (summarize_batch1_runs py_str agent_run agent_reliable fuel
                (c :: c' :: chunks) st ltac:(simpl; lia)) as (st' & tr & E & P).
    rewrite E. split.
    + rewrite P. cbn [length Nat.leb]. lia.
    + split; [simpl; lia|reflexivity].
Qed.

End Reliable.

End SummarizerMore.

(** ** The script from the fetched transcript to the summary *)

Section ScriptMore.

Context {agent_state object failure : Type}.
Variable py_str : object -> pystr.
Variable agent_run : agent_state -> pystr -> agent_state * @outcome object failure.

(** X20: the script shows a summary only when the transcript is not empty
    and makes a single chunk: the summary is then the captured output of the
    one model call, made on that chunk.  A transcript of two or more chunks
    never gets a summary. *)
Theorem process_summary_ready fuel transcript st st' tr s :
  process py_str agent_run fuel transcript st = (st', tr, SummaryReady s) ->
  exists text chunk v,
    transcript = Some text /\ text <> []
    /\ chunk_text text default_max_words = [chunk]
    /\ agent_run st (leaf_prompt chunk) = (st', Returns v)
    /\ s = capture py_str v
    /\ tr = [Run (leaf_prompt chunk) (Returns v); Sleep].
Proof.
  unfold process, process_with. intros H.
  destruct transcript as [[|c text]|]; try discriminate.
  destruct (summarize_with py_str agent_run batch_size fuel
              (chunk_text (c :: text) default_max_words) st)
    as [[st1 tr1] [s1|e|]] eqn:E; try discriminate.
  injection H as <- <- <-.
  destruct (summarize_batch1_ok py_str agent_run _ _ _ _ _ _ E)
    as [(Hc & _)|(chunk & v & Hc & Ha & Hs & Ht)].
  - exfalso. exact (chunk_text_nonempty default_max_words (c :: text) Hc).
  - exists (c :: text), chunk, v. repeat split; try assumption. discriminate.
Qed.

(** X21: for a transcript that is not empty and makes a single chunk, when
    the model returns for the prompt of that chunk, the script shows the
    captured output as the summary after this one call and one sleep. *)
Theorem process_single_chunk fuel c text chunk st st1 v :
  chunk_text (c :: text) default_max_words = [chunk] ->
  agent_run st (leaf_prompt chunk) = (st1, Returns v) ->
  process py_str agent_run fuel (Some (c :: text)) st
  = (st1, [Run (leaf_prompt chunk) (Returns v); Sleep], SummaryReady (capture py_str v)).
Proof.
  intros Hc Ha. unfold process, process_with. rewrite Hc.
  rewrite (summarize_one_chunk py_str agent_run batch_size fuel chunk st st1 v Ha).
  reflexivity.
Qed.

End ScriptMore.

Section FetchedTranscript.

Variable extract_info : pystr -> option video_info.
Variable http_get : pystr -> option pystr.

Lemma fetch_transcript_cleaned video_url t :
  fetch_transcript_yt_dlp extract_info http_get video_url = Some t ->
  exists r_text, t = clean_subtitles r_text.
Proof.
  unfold fetch_transcript_yt_dlp. intros H.
  destruct (extract_info video_url) as [info|]; [|discriminate].
  destruct (or_captions _ _) as [|[k v] rest]; [discriminate|].
  destruct (dict_get _ _) as [[|entry others]|]; try discriminate.
  destruct (format_url entry) as [[|c u]|]; try discriminate.
  destruct (http_get (c :: u)) as [r_text|]; [|discriminate].
  injection H as <-. exists r_text. reflexivity.
Qed.

(** X22: a transcript that was fetched and passes the script's guard (it
    is not empty) starts and ends with a word and has at least one word, and
    every chunk made of it, so every chunk sent to the model, has at least
    one word. *)
Theorem fetched_transcript_chunks video_url t max_words :
  fetch_transcript_yt_dlp extract_info http_get video_url = Some t ->
  t <> [] ->
  trimmed t = true
  /\ 1 <= word_count t
  /\ Forall (fun chunk => 1 <= word_count chunk) (chunk_text t max_words).
Proof.
  intros H Hne. destruct (fetch_transcript_cleaned video_url t H) as [r_text ->].
  assert (T : trimmed (clean_subtitles r_text) = true) by apply strip_trimmed.
  pose proof (trimmed_no_trailing_space _ T) as N.
  split; [exact T|]. split.
  - apply no_trailing_space_has_word; assumption.
  - apply chunks_have_words; assumption.
Qed.

End FetchedTranscript.

(** ** The scenarios of the added theorems *)

Lemma fetch_transcript_english_auto_witness :
  fetch_transcript_yt_dlp StubNet.extract_info StubNet.http_get (str "https://youtu.be/x")
  = Some (str "Hello big world . Bye.").
Proof.
  exact (fetch_transcript_english_auto StubNet.extract_info StubNet.http_get
           (str "https://youtu.be/x") StubNet.info _ _ _ _ _
           eq_refl eq_refl eq_refl eq_refl).
Defined.

Lemma fetch_transcript_some_witness :
  fetch_transcript_yt_dlp StubNet.extract_info StubNet.http_get (str "https://youtu.be/x")
  = Some (str "Hello big world . Bye.")
  /\ exists info key entry others u r_text,
       StubNet.extract_info (str "https://youtu.be/x") = Some info
       /\ dict_get key (or_captions (automatic_captions info)
                                    (or_captions (subtitles info) []))
          = Some (entry :: others)
       /\ (key = str "en"
           \/ dict_get (str "en") (or_captions (automatic_captions info)
                                               (or_captions (subtitles info) [])) = None
              /\ exists v rest,
                   or_captions (automatic_captions info) (or_captions (subtitles info) [])
                   = (key, v) :: rest)
       /\ format_url entry = Some u /\ u <> []
       /\ StubNet.http_get u = Some r_text
       /\ str "Hello big world . Bye." = clean_subtitles r_text.
Proof.
  split; [reflexivity|].
  apply (fetch_transcript_some StubNet.extract_info StubNet.http_get
           (str "https://youtu.be/x") (str "Hello big world . Bye.")).
  reflexivity.
Defined.

Lemma summarize_using_agent_returns_witness :
  summarize_using_agent Stub.no_str Stub.brief_run 7 [str "A."] 0%nat
  = (1%nat, [Run (leaf_prompt (str "A.")) (Returns (VStr (str "."))); Sleep], Ok (str ".")).
Proof.
  apply (summarize_using_agent_returns Stub.no_str Stub.brief_run 7 [str "A."] 0%nat).
  right. exists (str "A."), (VStr (str ".")). repeat split; reflexivity.
Defined.

Lemma merge_pass_batch1_witness :
  exists st' tr merged,
    merge_pass Stub.no_str Stub.brief_run batch_size [str "S"; str "T"] 0%nat
    = (st', tr, Ok merged)
    /\ prompts tr = map (fun s => batch_prompt [s]) [str "S"; str "T"]
    /\ length merged = 2%nat.
Proof.
  do 3 eexists. split; [lazy; reflexivity|].
  destruct (merge_pass_batch1 Stub.no_str Stub.brief_run [str "S"; str "T"] 0%nat)
    as [_ H].
  eapply H. vm_compute. reflexivity.
Defined.

Lemma summarize_using_agent_calls_witness :
  reliable Stub.brief_run
  /\ exists st' tr,
       summarize_using_agent Stub.no_str Stub.brief_run 2 [str "A."; str "B!"; str "C?"] 0%nat
       = (st', tr, Running)
       /\ length (prompts tr) = 9%nat.
Proof.
  split; [exact brief_reliable|].
  pose proof (summarize_using_agent_calls Stub.no_str Stub.brief_run brief_reliable 2
                [str "A."; str "B!"; str "C?"] 0%nat) as H.
  destruct (summarize_using_agent Stub.no_str Stub.brief_run 2
              [str "A."; str "B!"; str "C?"] 0%nat) as [[st' tr] r].
  destruct H as [Hn [_ Hr]]. exists st', tr.
  rewrite (Hr ltac:(simpl; lia)). split; [reflexivity|exact Hn].
Defined.

Lemma process_summary_ready_witness :
  process Stub.no_str Stub.brief_run 3 (Some (str "One two. Three!")) 0%nat
  = (1%nat, [Run (leaf_prompt (str "One two. Three!")) (Returns (VStr (str "!"))); Sleep],
     SummaryReady (str "!"))
  /\ exists text chunk v,
       Some (str "One two. Three!") = Some text /\ text <> []
       /\ chunk_text text default_max_words = [chunk]
       /\ Stub.brief_run 0 (leaf_prompt chunk) = (1%nat, Returns v)
       /\ str "!" = capture Stub.no_str v
       /\ ([Run (leaf_prompt (str "One two. Three!")) (Returns (VStr (str "!"))); Sleep]
           : list (@event Stub.no_object unit))
          = [Run (leaf_prompt chunk) (Returns v); Sleep].
Proof.
  split; [reflexivity|].
  apply (process_summary_ready Stub.no_str Stub.brief_run 3
           (Some (str "One two. Three!")) 0%nat).
  reflexivity.
Defined.

Lemma process_single_chunk_witness :
  chunk_text (str "One two. Three!") default_max_words = [str "One two. Three!"]
  /\ Stub.brief_run 0 (leaf_prompt (str "One two. Three!"))
     = (1%nat, Returns (VStr (str "!")))
  /\ process Stub.no_str Stub.brief_run 3 (Some (str "One two. Three!")) 0%nat
     = (1%nat, [Run (leaf_prompt (str "One two. Three!")) (Returns (VStr (str "!"))); Sleep],
        SummaryReady (capture Stub.no_str (VStr (str "!")))).
Proof.
  split; [reflexivity|]. split; [reflexivity|].
  apply (process_single_chunk Stub.no_str Stub.brief_run 3 79%N (str "ne two. Three!")
           (str "One two. Three!") 0%nat 1%nat (VStr (str "!"))); reflexivity.
Defined.

Lemma fetched_transcript_chunks_witness :
  fetch_transcript_yt_dlp StubNet.extract_info StubNet.http_get (str "https://youtu.be/x")
  = Some (str "Hello big world . Bye.")
  /\ str "Hello big world . Bye." <> []
  /\ Forall (fun chunk => 1 <= word_count chunk)
            (chunk_text (str "Hello big world . Bye.") 2).
Proof.
  assert (Hne : str "Hello big world . Bye." <> []) by discriminate.
  split; [reflexivity|]. split; [exact Hne|].
  apply (fetched_transcript_chunks StubNet.extract_info StubNet.http_get
           (str "https://youtu.be/x") (str "Hello big world . Bye.") 2 eq_refl Hne).
Defined.
